(** * Reachable-subgraph extraction and run-request assembly

    A shallow embedding of [handlePlay] of
    [src/app/frontend/src/nodes/components/macro-news-start-node.tsx]:
    the depth-first traversal [dfs] over the edge snapshot, the selection of
    [agentNodes] and [validEdges], the collection of [agentModels] and the
    request handed to [runFlow]. *)

From Stdlib Require Import String List Bool Arith Lia.
Import ListNotations.
Local Open Scope string_scope.
Local Open Scope list_scope.

Set Implicit Arguments.

(** ** JavaScript [Set<string>]

    A JavaScript [Set] iterates in insertion order and ignores the insertion
    of a member it already holds: a list without repetition, grown at its
    end. *)
Module JSSet.

Definition t := list string.

Definition empty : t := [].

Definition has (x : string) (s : t) : bool := existsb (String.eqb x) s.

Definition add (x : string) (s : t) : t :=
  if has x s then s else s ++ [x].

(** [new Set(iterable)]: the members are added one after the other. *)
Definition of_list (l : list string) : t :=
  fold_left (fun s x => add x s) l empty.

End JSSet.

(** ** Data of the graph snapshot *)

(** A node of the editor: [id], the optional [type] tag, the payload [data]
    and the [position]; the last two are opaque to [handlePlay]. *)
Record Node (Data Position : Type) := mkNode {
  node_id : string;
  node_type : option string;
  node_data : Data;
  node_position : Position
}.

(** An edge of the editor; [handlePlay] reads [source] and [target] and
    forwards the edge as it is. *)
Record Edge := mkEdge {
  edge_id : string;
  source : string;
  target : string
}.

(** An entry of the table returned by [getAllAgentModels]; [handlePlay] reads
    [model_name] and [provider]. *)
Record ModelItem := mkModelItem {
  item_model_name : string;
  item_provider : string
}.

(** The object literal pushed onto [agentModels]. *)
Record AgentModel := mkAgentModel {
  agent_id : string;
  am_model_name : string;
  am_model_provider : string
}.

(** The object literal built by [agentNodes.map] for [graph_nodes]. *)
Record GraphNode (Data Position : Type) := mkGraphNode {
  gn_id : string;
  gn_type : option string;
  gn_data : Data;
  gn_position : Position
}.

(** The argument of [runFlow]; [undefined] is [None]. *)
Record RunRequest (Data Position : Type) := mkRunRequest {
  tickers : list string;
  graph_nodes : list (GraphNode Data Position);
  graph_edges : list Edge;
  agent_models : list AgentModel;
  model_name : option string;
  model_provider : option string
}.

(** The two sets the traversal mutates. *)
Record DfsState := mkDfsState {
  visited : JSSet.t;
  reachableNodes : JSSet.t
}.

Definition dfs_init : DfsState :=
  {| visited := JSSet.empty; reachableNodes := JSSet.empty |}.

(** ** Control *)

(** [for (const x of l) body(x)] over a state, where the body may run out of
    fuel. *)
Fixpoint for_of {A S : Type} (l : list A) (body : A -> S -> option S)
    (st : S) : option S :=
  match l with
  | [] => Some st
  | x :: r =>
      match body x st with
      | Some st' => for_of r body st'
      | None => None
      end
  end.

(** The closure [dfs] of [handlePlay]; [fuel] bounds the depth of the
    recursion and [None] means the bound was hit. *)
Fixpoint dfs (fuel : nat) (allEdges : list Edge) (id : string)
    (nodeId : string) (st : DfsState) : option DfsState :=
  match fuel with
  | O => None
  | S fuel' =>
      if JSSet.has nodeId (visited st) then Some st
      else
        let st1 :=
          {| visited := JSSet.add nodeId (visited st);
             reachableNodes :=
               if negb (String.eqb nodeId id)
               then JSSet.add nodeId (reachableNodes st)
               else reachableNodes st |} in
        let outgoingEdges :=
          filter (fun edge => String.eqb (source edge) nodeId) allEdges in
        for_of outgoingEdges
          (fun edge st' => dfs fuel' allEdges id (target edge) st') st1
  end.

(** Depth that [dfs (id)] never exceeds: the start id, one level per edge
    target, and the innermost call that finds its argument visited. *)
Definition dfs_fuel (allEdges : list Edge) : nat := S (S (length allEdges)).

(** [dfs(id)] run to completion from the two empty sets. The [None] branch is
    dead code, see [dfs_fuel_suffices]. *)
Definition run_dfs (allEdges : list Edge) (id : string) : DfsState :=
  match dfs (dfs_fuel allEdges) allEdges id id dfs_init with
  | Some st => st
  | None => dfs_init
  end.

Section HandlePlay.

Context {Data Position : Type}.

Local Abbreviation Node := (Node Data Position).
Local Abbreviation GraphNode := (GraphNode Data Position).
Local Abbreviation RunRequest := (RunRequest Data Position).

(** [...(startNode ? [startNode] : [])]. *)
Definition spread_option {A : Type} (o : option A) : list A :=
  match o with
  | Some a => [a]
  | None => []
  end.

(** [allNodes.find(node => node.id === id)]. *)
Definition startNode (allNodes : list Node) (id : string) : option Node :=
  find (fun node => String.eqb (node_id node) id) allNodes.

(** [[...(startNode ? [startNode] : []), ...allNodes.filter(...)]]. *)
Definition agentNodes (allNodes : list Node) (allEdges : list Edge)
    (id : string) : list Node :=
  spread_option (startNode allNodes id) ++
  filter (fun node => JSSet.has (node_id node)
                        (reachableNodes (run_dfs allEdges id))) allNodes.

(** [new Set([id, ...reachableNodes])]. *)
Definition reachableNodeIds (allEdges : list Edge) (id : string) : JSSet.t :=
  JSSet.of_list (id :: reachableNodes (run_dfs allEdges id)).

Definition validEdges (allEdges : list Edge) (id : string) : list Edge :=
  filter (fun edge =>
            JSSet.has (source edge) (reachableNodeIds allEdges id) &&
            JSSet.has (target edge) (reachableNodeIds allEdges id))
         allEdges.

(** The loop that fills [agentModels]: [push] appends at the end, and a node
    whose table entry is missing pushes nothing. *)
Definition agentModels (allAgentModels : string -> option ModelItem)
    (nodes : list Node) : list AgentModel :=
  fold_left
    (fun acc node =>
       match allAgentModels (node_id node) with
       | Some model =>
           acc ++ [{| agent_id := node_id node;
                      am_model_name := item_model_name model;
                      am_model_provider := item_provider model |}]
       | None => acc
       end)
    nodes [].

(** The callback of [agentNodes.map]. *)
Definition toGraphNode (node : Node) : GraphNode :=
  {| gn_id := node_id node;
     gn_type := node_type node;
     gn_data := node_data node;
     gn_position := node_position node |}.

(** The object literal passed to [runFlow]. *)
Definition runRequest (allNodes : list Node) (allEdges : list Edge)
    (id : string) (allAgentModels : string -> option ModelItem)
    : RunRequest :=
  {| tickers := [];
     graph_nodes := map toGraphNode (agentNodes allNodes allEdges id);
     graph_edges := validEdges allEdges id;
     agent_models :=
       agentModels allAgentModels (agentNodes allNodes allEdges id);
     model_name := None;
     model_provider := None |}.

(** A call on the layout context, which lies outside this component: the
    call and its argument are recorded, what the panel does with them is not
    modelled. *)
Inductive LayoutCall : Type :=
| ExpandBottomPanel
| SetBottomPanelTab (tab : string).

(** What [handlePlay] reads and what it calls: the editor's snapshot behind
    [getNodes] and [getEdges], the table behind [getAllAgentModels], the
    calls made on the layout context and the requests handed to
    [runFlow], each in call order. *)
Record World := mkWorld {
  w_nodes : list Node;
  w_edges : list Edge;
  w_agentModels : option string -> string -> option ModelItem;
  w_layout : list LayoutCall;
  w_runFlow : list RunRequest
}.

Definition expandBottomPanel (w : World) : World :=
  {| w_nodes := w_nodes w; w_edges := w_edges w;
     w_agentModels := w_agentModels w;
     w_layout := w_layout w ++ [ExpandBottomPanel];
     w_runFlow := w_runFlow w |}.

Definition setBottomPanelTab (tab : string) (w : World) : World :=
  {| w_nodes := w_nodes w; w_edges := w_edges w;
     w_agentModels := w_agentModels w;
     w_layout := w_layout w ++ [SetBottomPanelTab tab];
     w_runFlow := w_runFlow w |}.

Definition runFlow (request : RunRequest) (w : World) : World :=
  {| w_nodes := w_nodes w; w_edges := w_edges w;
     w_agentModels := w_agentModels w;
     w_layout := w_layout w;
     w_runFlow := w_runFlow w ++ [request] |}.

(** [handlePlay] of the start node [id] in the flow [flowId]. *)
Definition handlePlay (id : string) (flowId : option string) (w : World)
    : World :=
  let w1 := expandBottomPanel w in
  let w2 := setBottomPanelTab "output" w1 in
  let allNodes := w_nodes w2 in
  let allEdges := w_edges w2 in
  let allAgentModels := w_agentModels w2 flowId in
  runFlow (runRequest allNodes allEdges id allAgentModels) w2.

End HandlePlay.

(** ** Specification vocabulary *)

(** A directed path of one or more edges. *)
Inductive path (allEdges : list Edge) : string -> string -> Prop :=
| path_one : forall e, In e allEdges -> path allEdges (source e) (target e)
| path_cons : forall e z,
    In e allEdges -> path allEdges (target e) z ->
    path allEdges (source e) z.

(** A path of zero or more edges. *)
Definition reaches (allEdges : list Edge) (x y : string) : Prop :=
  x = y \/ path allEdges x y.

(** Number of nodes of a list that carry the id [x]. *)
Definition count_id {Data Position : Type} (x : string)
    (l : list (Node Data Position)) : nat :=
  length (filter (fun node => String.eqb (node_id node) x) l).

(** Number of entries of an assignment list made for the agent [x]. *)
Definition count_agent (x : string) (l : list AgentModel) : nat :=
  length (filter (fun a => String.eqb (agent_id a) x) l).

(** The entry the specification asks for a node: present when the lookup
    answers, absent otherwise. *)
Definition assignment_of {Data Position : Type}
    (modelLookup : string -> option ModelItem) (node : Node Data Position)
    : list AgentModel :=
  match modelLookup (node_id node) with
  | Some model =>
      [{| agent_id := node_id node;
          am_model_name := item_model_name model;
          am_model_provider := item_provider model |}]
  | None => []
  end.


(** Some node of [l] carries the id [x]. *)
Definition has_node {Data Position : Type} (x : string)
    (l : list (Node Data Position)) : Prop :=
  exists node, In node l /\ node_id node = x.

(** What one call [dfs(x)] does to the state. *)
Definition dfs_post (allEdges : list Edge) (id x : string)
    (st st' : DfsState) : Prop :=
  incl (visited st) (visited st') /\
  In x (visited st') /\
  (forall y, In y (visited st') ->
     In y (visited st) \/ reaches allEdges x y) /\
  (forall y, In y (visited st') -> ~ In y (visited st) ->
     forall e, In e allEdges -> source e = y ->
     In (target e) (visited st')) /\
  (reachableNodes st =
     filter (fun y => negb (String.eqb y id)) (visited st) ->
   reachableNodes st' =
     filter (fun y => negb (String.eqb y id)) (visited st')).

(** What the loop over the outgoing edges [l] does to the state. *)
Definition loop_post (allEdges : list Edge) (id : string) (l : list Edge)
    (st st' : DfsState) : Prop :=
  incl (visited st) (visited st') /\
  (forall e, In e l -> In (target e) (visited st')) /\
  (forall y, In y (visited st') ->
     In y (visited st) \/
     exists e, In e l /\ reaches allEdges (target e) y) /\
  (forall y, In y (visited st') -> ~ In y (visited st) ->
     forall e, In e allEdges -> source e = y ->
     In (target e) (visited st')) /\
  (reachableNodes st =
     filter (fun y => negb (String.eqb y id)) (visited st) ->
   reachableNodes st' =
     filter (fun y => negb (String.eqb y id)) (visited st')).

(** Ids [dfs] can be called on, and how many of them are still unvisited. *)
Definition candidates (allEdges : list Edge) (id : string) : list string :=
  id :: map target allEdges.

Definition unvisited (allEdges : list Edge) (id : string) (st : DfsState)
    : nat :=
  length (filter (fun c => negb (JSSet.has c (visited st)))
                 (candidates allEdges id)).

(** ** Sample graphs *)

Definition nd (x : string) : Node unit unit :=
  {| node_id := x; node_type := None; node_data := tt;
     node_position := tt |}.

Definition ed (x y : string) : Edge :=
  {| edge_id := x ++ "-" ++ y; source := x; target := y |}.


(** ** The rest of the component *)

(** What [useFlowConnection] reports and the component reads. *)
Record Connection := mkConnection {
  isConnecting : bool;
  isConnected : bool;
  isProcessing : bool;
  canRun : bool
}.

Definition showAsProcessing (c : Connection) : bool :=
  isConnecting c || isConnected c || isProcessing c.

(** The two handlers the button can be bound to. *)
Inductive ClickHandler : Type :=
| HandleStop
| HandlePlay.

(** [onClick={showAsProcessing ? handleStop : handlePlay}]. *)
Definition onClick (c : Connection) : ClickHandler :=
  if showAsProcessing c then HandleStop else HandlePlay.

(** [disabled={!canRun && !showAsProcessing}]. *)
Definition disabled (c : Connection) : bool :=
  negb (canRun c) && negb (showAsProcessing c).

(** [data.name || "Macro News Opportunities"]: a missing name and the empty
    string are both falsy. *)
Definition shellName (name : option string) : string :=
  match name with
  | Some EmptyString => "Macro News Opportunities"
  | Some s => s
  | None => "Macro News Opportunities"
  end.

(** ** More specification vocabulary *)

Definition Edge_eq_dec (e1 e2 : Edge) : {e1 = e2} + {e1 <> e2}.
Proof.
  decide equality; apply string_dec.
Defined.

(** A list of ids in which the first id is arbitrary and every later id is
    the target of an edge whose source stands earlier in the list. *)
Inductive discovery_order (allEdges : list Edge) : list string -> Prop :=
| discovery_nil : discovery_order allEdges []
| discovery_first : forall x, discovery_order allEdges [x]
| discovery_snoc : forall l y e,
    discovery_order allEdges l ->
    In e allEdges -> In (source e) l -> target e = y ->
    discovery_order allEdges (l ++ [y]).

(** The traversal only appends to [visited] and keeps it free of repeats. *)
Definition extends_visited (st st' : DfsState) : Prop :=
  (exists l, visited st' = visited st ++ l) /\
  (NoDup (visited st) -> NoDup (visited st')).

(** The lookup has an entry for [x]. *)
Definition has_model (allAgentModels : string -> option ModelItem)
    (x : string) : bool :=
  match allAgentModels x with
  | Some _ => true
  | None => false
  end.

(** ** The objects [handlePlay] allocates and mutates

    The arrays and sets of lines 54 to 109 as objects on a heap: the two
    input arrays live at given locations, [new Set], [filter], [map], the
    array literals and [] allocate, [Set.prototype.add] and
    [Array.prototype.push] write in place. Nodes, edges and strings are
    values: [handlePlay] assigns to no property of them. *)
Section HeapModel.

Context {Data Position : Type}.

Local Abbreviation Node := (Node Data Position).
Local Abbreviation GraphNode := (GraphNode Data Position).
Local Abbreviation RunRequest := (RunRequest Data Position).

Inductive Obj : Type :=
| ONodeArray (l : list Node)
| OEdgeArray (l : list Edge)
| OStringArray (l : list string)
| OModelArray (l : list AgentModel)
| OGraphNodeArray (l : list GraphNode)
| OStringSet (s : JSSet.t).

(** [next] is the first location never allocated. *)
Record Heap := mkHeap {
  next : nat;
  cell : nat -> option Obj
}.

(** The heap after allocating [o], and after overwriting location [l]. *)
Definition grow (h : Heap) (o : Obj) : Heap :=
  {| next := S (next h);
     cell := fun l => if Nat.eqb l (next h) then Some o else cell h l |}.

Definition upd (h : Heap) (l : nat) (o : Obj) : Heap :=
  {| next := next h;
     cell := fun l' => if Nat.eqb l' l then Some o else cell h l' |}.

(** Computations on the heap; [None] is a read of the wrong kind of object
    or the depth bound of [dfsM]. *)
Definition M (A : Type) : Type := Heap -> option (A * Heap).

Definition ret {A : Type} (a : A) : M A := fun h => Some (a, h).

Definition bind {A B : Type} (m : M A) (k : A -> M B) : M B :=
  fun h =>
    match m h with
    | Some (a, h') => k a h'
    | None => None
    end.

Definition fail {A : Type} : M A := fun _ => None.

Local Notation "x <- m ;; k" := (bind m (fun x => k))
  (at level 61, m at next level, right associativity).
Local Notation "m ;;; k" := (bind m (fun _ => k))
  (at level 61, right associativity).

Definition alloc (o : Obj) : M nat := fun h => Some (next h, grow h o).

Definition load (l : nat) : M Obj :=
  fun h =>
    match cell h l with
    | Some o => Some (o, h)
    | None => None
    end.

Definition store (l : nat) (o : Obj) : M unit :=
  fun h => Some (tt, upd h l o).

Definition loadNodes (l : nat) : M (list Node) :=
  o <- load l ;; match o with ONodeArray ns => ret ns | _ => fail end.

Definition loadEdges (l : nat) : M (list Edge) :=
  o <- load l ;; match o with OEdgeArray es => ret es | _ => fail end.

Definition loadStrings (l : nat) : M (list string) :=
  o <- load l ;; match o with OStringArray xs => ret xs | _ => fail end.

Definition loadModels (l : nat) : M (list AgentModel) :=
  o <- load l ;; match o with OModelArray ms => ret ms | _ => fail end.

Definition loadSet (l : nat) : M JSSet.t :=
  o <- load l ;; match o with OStringSet v => ret v | _ => fail end.

(** [Array.prototype.filter] and [find] with a callback that may read the
    heap, and [for (const x of xs)]. *)
Fixpoint filterM {A : Type} (f : A -> M bool) (l : list A) : M (list A) :=
  match l with
  | [] => ret []
  | a :: r =>
      b <- f a ;;
      r' <- filterM f r ;;
      ret (if b then a :: r' else r')
  end.

Fixpoint findM {A : Type} (f : A -> M bool) (l : list A) : M (option A) :=
  match l with
  | [] => ret None
  | a :: r => b <- f a ;; if b then ret (Some a) else findM f r
  end.

Fixpoint forM {A : Type} (l : list A) (body : A -> M unit) : M unit :=
  match l with
  | [] => ret tt
  | a :: r => body a ;;; forM r body
  end.

Definition Set_new : M nat := alloc (OStringSet JSSet.empty).

(** [new Set(array)]. *)
Definition Set_from (arr : nat) : M nat :=
  xs <- loadStrings arr ;; alloc (OStringSet (JSSet.of_list xs)).

Definition Set_has (s : nat) (x : string) : M bool :=
  v <- loadSet s ;; ret (JSSet.has x v).

Definition Set_add (s : nat) (x : string) : M unit :=
  v <- loadSet s ;; store s (OStringSet (JSSet.add x v)).

Definition Array_push (arr : nat) (a : AgentModel) : M unit :=
  ms <- loadModels arr ;; store arr (OModelArray (ms ++ [a])).

(** The closure [dfs] on the heap: [allEdges], [visited] and
    [reachableNodes] are the locations of the captured objects. The loop
    runs over the elements of [outgoingEdges], which nothing writes to
    while it runs. *)
Fixpoint dfsM (fuel : nat) (allEdges visited reachableNodes : nat)
    (id nodeId : string) : M unit :=
  match fuel with
  | O => fail
  | S fuel' =>
      seen <- Set_has visited nodeId ;;
      if seen then ret tt
      else
        Set_add visited nodeId ;;;
        (if negb (String.eqb nodeId id)
         then Set_add reachableNodes nodeId
         else ret tt) ;;;
        es <- loadEdges allEdges ;;
        outgoing <-
          filterM (fun edge => ret (String.eqb (source edge) nodeId)) es ;;
        outgoingEdges <- alloc (OEdgeArray outgoing) ;;
        elements <- loadEdges outgoingEdges ;;
        forM elements
          (fun edge =>
             dfsM fuel' allEdges visited reachableNodes id (target edge))
  end.

(** The object literal passed to [runFlow], by the locations of its arrays;
    [model_name] and [model_provider] are [undefined]. *)
Record RequestRefs := mkRequestRefs {
  r_tickers : nat;
  r_graph_nodes : nat;
  r_graph_edges : nat;
  r_agent_models : nat
}.

(** Lines 54 to 109 between the two collaborator calls: from the arrays
    returned by [getNodes] and [getEdges] and the table returned by
    [getAllAgentModels] to the argument of [runFlow]. *)
Definition assembleRequest (fuel : nat) (allNodes allEdges : nat)
    (id : string) (allAgentModels : string -> option ModelItem)
    : M RequestRefs :=
  reachableNodes <- Set_new ;;
  visited <- Set_new ;;
  dfsM fuel allEdges visited reachableNodes id id ;;;
  ns <- loadNodes allNodes ;;
  startNode <- findM (fun node => ret (String.eqb (node_id node) id)) ns ;;
  first <- alloc (ONodeArray (spread_option startNode)) ;;
  ns' <- loadNodes allNodes ;;
  filtered <-
    filterM (fun node => Set_has reachableNodes (node_id node)) ns' ;;
  rest <- alloc (ONodeArray filtered) ;;
  xs <- loadNodes first ;;
  ys <- loadNodes rest ;;
  agentNodes <- alloc (ONodeArray (xs ++ ys)) ;;
  rs <- loadSet reachableNodes ;;
  ids <- alloc (OStringArray (id :: rs)) ;;
  reachableNodeIds <- Set_from ids ;;
  es <- loadEdges allEdges ;;
  valid <-
    filterM
      (fun edge =>
         b <- Set_has reachableNodeIds (source edge) ;;
         if b then Set_has reachableNodeIds (target edge) else ret false)
      es ;;
  validEdges <- alloc (OEdgeArray valid) ;;
  agentModels <- alloc (OModelArray []) ;;
  nodes <- loadNodes agentNodes ;;
  forM nodes
    (fun node =>
       match allAgentModels (node_id node) with
       | Some model =>
           Array_push agentModels
             {| agent_id := node_id node;
                am_model_name := item_model_name model;
                am_model_provider := item_provider model |}
       | None => ret tt
       end) ;;;
  tickersArray <- alloc (OStringArray []) ;;
  nodes' <- loadNodes agentNodes ;;
  graphNodes <- alloc (OGraphNodeArray (map toGraphNode nodes')) ;;
  ret {| r_tickers := tickersArray;
         r_graph_nodes := graphNodes;
         r_graph_edges := validEdges;
         r_agent_models := agentModels |}.

(** The request a heap holds behind the references. *)
Definition payload (h : Heap) (r : RequestRefs) : option RunRequest :=
  match cell h (r_tickers r), cell h (r_graph_nodes r),
        cell h (r_graph_edges r), cell h (r_agent_models r) with
  | Some (OStringArray t), Some (OGraphNodeArray g),
    Some (OEdgeArray e), Some (OModelArray m) =>
      Some {| tickers := t; graph_nodes := g; graph_edges := e;
              agent_models := m; model_name := None;
              model_provider := None |}
  | _, _, _, _ => None
  end.

(** Location [l] is allocated in [h] and holds [o]. *)
Definition holds (h : Heap) (l : nat) (o : Obj) : Prop :=
  l < next h /\ cell h l = Some o.

(** [h'] holds every object of [h] unchanged, and possibly new ones. *)
Definition extends (h h' : Heap) : Prop :=
  next h <= next h' /\ forall l, l < next h -> cell h' l = cell h l.

(** As [extends], but the two sets of the traversal may have changed. *)
Definition dfs_frame (visited reachableNodes : nat) (h h' : Heap) : Prop :=
  next h <= next h' /\
  forall l, l < next h -> l <> visited -> l <> reachableNodes ->
    cell h' l = cell h l.

(** The heap holds the edge array and the two sets of the state [st]. *)
Definition dfs_heap (locE locV locR : nat) (E : list Edge) (st : DfsState)
    (h : Heap) : Prop :=
  holds h locE (OEdgeArray E) /\
  holds h locV (OStringSet (visited st)) /\
  holds h locR (OStringSet (reachableNodes st)).

(** As [extends], but one location may have changed. *)
Definition frame1 (loc : nat) (h h' : Heap) : Prop :=
  next h <= next h' /\
  forall l, l < next h -> l <> loc -> cell h' l = cell h l.

End HeapModel.

(** Two heaps for the instances: the snapshot arrays sit at different
    locations, next to an unrelated array. *)
Definition heap_a : @Heap unit unit :=
  {| next := 2;
     cell := fun l =>
       match l with
       | 0 => Some (ONodeArray [nd "S"; nd "A"])
       | 1 => Some (OEdgeArray [ed "S" "A"])
       | _ => None
       end |}.

Definition heap_b : @Heap unit unit :=
  {| next := 3;
     cell := fun l =>
       match l with
       | 0 => Some (OStringArray ["unrelated"])
       | 1 => Some (OEdgeArray [ed "S" "A"])
       | 2 => Some (ONodeArray [nd "S"; nd "A"])
       | _ => None
       end |}.

(** * Properties *)

(** ** Sets *)

Lemma has_In (x : string) (s : JSSet.t) : JSSet.has x s = true <-> In x s.
Proof.
  unfold JSSet.has. rewrite existsb_exists. split.
  - intros [y [Hy Heq]]. apply String.eqb_eq in Heq. now subst.
  - intros H. exists x. split; [assumption | apply String.eqb_refl].
Qed.

Lemma has_false (x : string) (s : JSSet.t) :
  JSSet.has x s = false <-> ~ In x s.
Proof.
  rewrite <- has_In. destruct (JSSet.has x s); split; congruence.
Qed.

Lemma add_In (x y : string) (s : JSSet.t) :
  In y (JSSet.add x s) <-> y = x \/ In y s.
Proof.
  unfold JSSet.add. destruct (JSSet.has x s) eqn:Hx.
  - apply has_In in Hx. split; [now right | intros [-> | H]; assumption].
  - rewrite in_app_iff. simpl. split.
    + intros [H | [H | []]]; [now right | now left].
    + intros [-> | H]; [right; now left | now left].
Qed.

Lemma add_fresh (x : string) (s : JSSet.t) :
  ~ In x s -> JSSet.add x s = s ++ [x].
Proof.
  intros H. unfold JSSet.add. apply has_false in H. now rewrite H.
Qed.

Lemma fold_add_In (l : list string) (acc : JSSet.t) (y : string) :
  In y (fold_left (fun s x => JSSet.add x s) l acc) <-> In y acc \/ In y l.
Proof.
  revert acc. induction l as [| a l IH]; intros acc; simpl.
  - tauto.
  - rewrite IH, add_In. intuition congruence.
Qed.

Lemma of_list_In (l : list string) (y : string) :
  In y (JSSet.of_list l) <-> In y l.
Proof.
  unfold JSSet.of_list. rewrite fold_add_In. simpl. tauto.
Qed.

(** ** Paths *)

Lemma reaches_step (allEdges : list Edge) (e : Edge) (y : string) :
  In e allEdges -> reaches allEdges (target e) y ->
  path allEdges (source e) y.
Proof.
  intros He [<- | Hp].
  - now apply path_one.
  - now apply path_cons.
Qed.

Lemma path_closed (allEdges : list Edge) (V : list string) :
  (forall e, In e allEdges -> In (source e) V -> In (target e) V) ->
  forall x y, path allEdges x y -> In x V -> In y V.
Proof.
  intros Hcl x y Hp. induction Hp as [e He | e z He Hp IH]; intros Hx.
  - now apply Hcl.
  - apply IH. now apply Hcl.
Qed.

(** ** The traversal *)

Lemma filter_snoc {A : Type} (f : A -> bool) (l : list A) (a : A) :
  filter f (l ++ [a]) = filter f l ++ (if f a then [a] else []).
Proof.
  rewrite filter_app. simpl. now destruct (f a).
Qed.

Lemma for_of_ok (allEdges : list Edge) (id : string)
    (body : Edge -> DfsState -> option DfsState) :
  (forall e st st', body e st = Some st' ->
     dfs_post allEdges id (target e) st st') ->
  forall l st st', for_of l body st = Some st' ->
    loop_post allEdges id l st st'.
Proof.
  intros Hbody. induction l as [| e l IH]; intros st st' H; simpl in H.
  - inversion H; subst. unfold loop_post. repeat split.
    + apply incl_refl.
    + intros e [].
    + intros y Hy. now left.
    + intros y Hy Hn. contradiction.
    + auto.
  - destruct (body e st) as [st2 |] eqn:Hb; [| discriminate].
    apply Hbody in Hb. apply IH in H.
    destruct Hb as (Hi1 & Hx1 & Hs1 & Hc1 & Hr1).
    destruct H as (Hi2 & Hx2 & Hs2 & Hc2 & Hr2).
    unfold loop_post. repeat split.
    + eapply incl_tran; eassumption.
    + intros e' [<- | He'].
      * now apply Hi2.
      * now apply Hx2.
    + intros y Hy. destruct (Hs2 y Hy) as [Hy2 | [e' [He' Hr]]].
      * destruct (Hs1 y Hy2) as [Hy1 | Hr].
        -- now left.
        -- right. exists e. split; [now left | assumption].
      * right. exists e'. split; [now right | assumption].
    + intros y Hy Hn e' He' Hsrc.
      destruct (in_dec string_dec y (visited st2)) as [Hy2 | Hn2].
      * apply Hi2. eapply Hc1; eassumption.
      * eapply Hc2; eassumption.
    + auto.
Qed.

Lemma dfs_ok (allEdges : list Edge) (id : string) :
  forall fuel x st st', dfs fuel allEdges id x st = Some st' ->
    dfs_post allEdges id x st st'.
Proof.
  induction fuel as [| fuel IH]; intros x st st' H; simpl in H.
  - discriminate.
  - destruct (JSSet.has x (visited st)) eqn:Hx.
    + inversion H; subst. apply has_In in Hx. unfold dfs_post. repeat split.
      * apply incl_refl.
      * assumption.
      * intros y Hy. now left.
      * intros y Hy Hn. contradiction.
      * auto.
    + apply has_false in Hx.
      apply (for_of_ok (allEdges := allEdges) (id := id)) in H.
      2:{ intros e s1 s2 Hb. now apply IH. }
      destruct H as (Hi & Ht & Hs & Hc & Hr). simpl in *.
      unfold dfs_post. repeat split.
      * intros y Hy. apply Hi. apply add_In. now right.
      * apply Hi. apply add_In. now left.
      * intros y Hy. destruct (Hs y Hy) as [Hy1 | [e [He Hre]]].
        -- apply add_In in Hy1. destruct Hy1 as [-> | Hy1].
           ++ right. now left.
           ++ now left.
        -- apply filter_In in He. destruct He as [He Hsrc].
           apply String.eqb_eq in Hsrc. right. right. subst x.
           now apply reaches_step.
      * intros y Hy Hn e He Hsrc.
        destruct (string_dec y x) as [-> | Hne].
        -- apply Ht. apply filter_In. split; [assumption |].
           now apply String.eqb_eq.
        -- eapply Hc; try eassumption.
           rewrite add_In. intros [? | ?]; contradiction.
      * intros Heq. apply Hr. rewrite (@add_fresh x (visited st) Hx), filter_snoc.
        destruct (negb (x =? id)) eqn:Hid.
        -- rewrite Heq. apply add_fresh. intros Hin.
           apply filter_In in Hin. now destruct Hin.
        -- rewrite Heq. now rewrite app_nil_r.
Qed.

(** ** Termination *)

Lemma filter_length_le {A : Type} (f g : A -> bool) (l : list A) :
  (forall a, In a l -> f a = true -> g a = true) ->
  length (filter f l) <= length (filter g l).
Proof.
  induction l as [| a l IH]; intros H; simpl; [lia |].
  assert (IH' : length (filter f l) <= length (filter g l)).
  { apply IH. intros b Hb. apply H. now right. }
  destruct (f a) eqn:Hf.
  - rewrite (H a (or_introl eq_refl) Hf). simpl. lia.
  - destruct (g a); simpl; lia.
Qed.

Lemma filter_length_lt {A : Type} (f g : A -> bool) (l : list A) (a : A) :
  (forall b, In b l -> f b = true -> g b = true) ->
  In a l -> f a = false -> g a = true ->
  length (filter f l) < length (filter g l).
Proof.
  induction l as [| b l IH]; intros H Ha Hf Hg; simpl; [destruct Ha |].
  assert (Hle : length (filter f l) <= length (filter g l)).
  { apply filter_length_le. intros c Hc. apply H. now right. }
  destruct Ha as [-> | Ha].
  - rewrite Hf, Hg. simpl. lia.
  - assert (Hlt : length (filter f l) < length (filter g l)).
    { apply IH; try assumption. intros c Hc. apply H. now right. }
    destruct (f b) eqn:Hfb.
    + rewrite (H b (or_introl eq_refl) Hfb). simpl. lia.
    + destruct (g b); simpl; lia.
Qed.

Lemma unvisited_mono (allEdges : list Edge) (id : string)
    (st st' : DfsState) :
  incl (visited st) (visited st') ->
  unvisited allEdges id st' <= unvisited allEdges id st.
Proof.
  intros Hi. unfold unvisited. apply filter_length_le.
  intros c _ Hc. apply negb_true_iff in Hc. apply negb_true_iff.
  apply has_false. apply has_false in Hc. intros Hin. apply Hc.
  now apply Hi.
Qed.

Lemma unvisited_add (allEdges : list Edge) (id x : string)
    (st st1 : DfsState) :
  In x (candidates allEdges id) -> ~ In x (visited st) ->
  visited st1 = JSSet.add x (visited st) ->
  unvisited allEdges id st1 < unvisited allEdges id st.
Proof.
  intros Hc Hx Hv. unfold unvisited. apply filter_length_lt with (a := x).
  - intros c _ H. apply negb_true_iff in H. apply negb_true_iff.
    apply has_false. apply has_false in H. intros Hin. apply H.
    rewrite Hv. apply add_In. now right.
  - assumption.
  - apply negb_false_iff. apply has_In. rewrite Hv. apply add_In. now left.
  - apply negb_true_iff. now apply has_false.
Qed.

Lemma for_of_total (allEdges : list Edge) (id : string) (fuel : nat) :
  (forall x st, In x (candidates allEdges id) ->
     unvisited allEdges id st < fuel ->
     exists st', dfs fuel allEdges id x st = Some st') ->
  forall l st, incl l allEdges -> unvisited allEdges id st < fuel ->
    exists st',
      for_of l (fun e s => dfs fuel allEdges id (target e) s) st = Some st'.
Proof.
  intros Hdfs. induction l as [| e l IH]; intros st Hl Hu; simpl.
  - now exists st.
  - destruct (Hdfs (target e) st) as [st2 H2]; [| assumption |].
    { right. apply in_map. apply Hl. now left. }
    rewrite H2. apply IH.
    + intros e' He'. apply Hl. now right.
    + apply dfs_ok in H2. destruct H2 as [Hi _].
      pose proof (@unvisited_mono allEdges id _ _ Hi). lia.
Qed.

Lemma dfs_total (allEdges : list Edge) (id : string) :
  forall fuel x st, In x (candidates allEdges id) ->
    unvisited allEdges id st < fuel ->
    exists st', dfs fuel allEdges id x st = Some st'.
Proof.
  induction fuel as [| fuel IH]; intros x st Hx Hu; [lia |]. simpl.
  destruct (JSSet.has x (visited st)) eqn:Hv.
  - now exists st.
  - apply has_false in Hv. apply for_of_total.
    + exact IH.
    + intros e He. apply filter_In in He. now destruct He.
    + match goal with
      | |- unvisited _ _ ?s < _ =>
          assert (Hlt : unvisited allEdges id s < unvisited allEdges id st)
      end.
      { now apply unvisited_add with (x := x). }
      lia.
Qed.

Lemma unvisited_init (allEdges : list Edge) (id : string) :
  unvisited allEdges id dfs_init < dfs_fuel allEdges.
Proof.
  unfold unvisited, dfs_fuel.
  match goal with
  | |- length (filter ?f ?l) < _ => pose proof (filter_length f l) as H
  end.
  unfold candidates in H |- *. cbn [length] in H.
  rewrite length_map in H. lia.
Qed.

Lemma dfs_fuel_suffices (allEdges : list Edge) (id : string) :
  exists st, dfs (dfs_fuel allEdges) allEdges id id dfs_init = Some st.
Proof.
  apply dfs_total; [now left | apply unvisited_init].
Qed.

Lemma for_of_ext {A S : Type} (b1 b2 : A -> S -> option S) :
  (forall a s s', b1 a s = Some s' -> b2 a s = Some s') ->
  forall l s s', for_of l b1 s = Some s' -> for_of l b2 s = Some s'.
Proof.
  intros Hb. induction l as [| a l IH]; intros s s' H; simpl in *.
  - assumption.
  - destruct (b1 a s) as [s2 |] eqn:H1; [| discriminate].
    rewrite (Hb _ _ _ H1). now apply IH.
Qed.

Lemma dfs_fuel_mono (allEdges : list Edge) (id : string) :
  forall fuel fuel' x st st', fuel <= fuel' ->
    dfs fuel allEdges id x st = Some st' ->
    dfs fuel' allEdges id x st = Some st'.
Proof.
  induction fuel as [| fuel IH]; intros fuel' x st st' Hle H;
    [discriminate |].
  destruct fuel' as [| fuel']; [lia |]. simpl in *.
  destruct (JSSet.has x (visited st)); [assumption |].
  revert H. apply for_of_ext. intros e s s'. apply IH. lia.
Qed.

(** ** The result of the traversal *)

Lemma run_dfs_eq (allEdges : list Edge) (id : string) :
  dfs (dfs_fuel allEdges) allEdges id id dfs_init =
  Some (run_dfs allEdges id).
Proof.
  unfold run_dfs. destruct (dfs_fuel_suffices allEdges id) as [st H].
  now rewrite H.
Qed.

Lemma run_dfs_post (allEdges : list Edge) (id : string) :
  dfs_post allEdges id id dfs_init (run_dfs allEdges id).
Proof.
  eapply dfs_ok. apply run_dfs_eq.
Qed.

Lemma visited_iff (allEdges : list Edge) (id y : string) :
  In y (visited (run_dfs allEdges id)) <-> reaches allEdges id y.
Proof.
  destruct (run_dfs_post allEdges id) as (_ & Hs & Hsound & Hcl & _).
  split.
  - intros Hy. destruct (Hsound y Hy) as [[] | H]. assumption.
  - intros [<- | Hp]; [assumption |].
    apply path_closed with (allEdges := allEdges) (x := id);
      try assumption.
    intros e He Hsrc. apply Hcl with (y := source e); auto.
Qed.

Lemma reachableNodes_eq (allEdges : list Edge) (id : string) :
  reachableNodes (run_dfs allEdges id) =
  filter (fun y => negb (String.eqb y id)) (visited (run_dfs allEdges id)).
Proof.
  destruct (run_dfs_post allEdges id) as (_ & _ & _ & _ & Hr).
  now apply Hr.
Qed.

Lemma reachableNodes_iff (allEdges : list Edge) (id y : string) :
  In y (reachableNodes (run_dfs allEdges id)) <->
  y <> id /\ path allEdges id y.
Proof.
  rewrite reachableNodes_eq, filter_In, visited_iff, negb_true_iff.
  rewrite String.eqb_neq. unfold reaches. split.
  - intros [[<- | Hp] Hne]; [congruence | tauto].
  - tauto.
Qed.

Lemma reachableNodeIds_iff (allEdges : list Edge) (id y : string) :
  In y (reachableNodeIds allEdges id) <-> y = id \/ path allEdges id y.
Proof.
  unfold reachableNodeIds. rewrite of_list_In. simpl.
  rewrite reachableNodes_iff.
  destruct (string_dec y id) as [-> | Hne]; intuition congruence.
Qed.

(** ** The specification's scenarios, run on the code *)

Example scenario_tree :
  agentNodes [nd "S"; nd "A"; nd "B"; nd "C"]
             [ed "S" "A"; ed "A" "B"; ed "S" "C"] "S"
    = [nd "S"; nd "A"; nd "B"; nd "C"] /\
  validEdges [ed "S" "A"; ed "A" "B"; ed "S" "C"] "S"
    = [ed "S" "A"; ed "A" "B"; ed "S" "C"].
Proof. split; reflexivity. Qed.

Example scenario_no_edges :
  agentNodes [nd "S"; nd "A"] [] "S" = [nd "S"] /\
  validEdges [] "S" = [].
Proof. split; reflexivity. Qed.

Example scenario_cycle :
  agentNodes [nd "S"; nd "A"] [ed "S" "A"; ed "A" "S"] "S"
    = [nd "S"; nd "A"] /\
  validEdges [ed "S" "A"; ed "A" "S"] "S" = [ed "S" "A"; ed "A" "S"].
Proof. split; reflexivity. Qed.

Example scenario_self_loop :
  run_dfs [ed "S" "S"] "S" = {| visited := ["S"]; reachableNodes := [] |} /\
  agentNodes [nd "S"] [ed "S" "S"] "S" = [nd "S"] /\
  validEdges [ed "S" "S"] "S" = [ed "S" "S"].
Proof. repeat split; reflexivity. Qed.

Example scenario_discovery_order :
  reachableNodes (run_dfs [ed "S" "B"; ed "B" "A"] "S") = ["B"; "A"].
Proof. reflexivity. Qed.

(** ** Node lists *)

Section NodeLists.

Context {Data Position : Type}.

Local Abbreviation Node := (Node Data Position).

Lemma startNode_some (allNodes : list Node) (id : string) (m : Node) :
  startNode allNodes id = Some m -> In m allNodes /\ node_id m = id.
Proof.
  unfold startNode. intros H. apply find_some in H.
  destruct H as [Hin Heq]. apply String.eqb_eq in Heq. now split.
Qed.

Lemma startNode_none (allNodes : list Node) (id : string) :
  startNode allNodes id = None -> ~ has_node id allNodes.
Proof.
  unfold startNode. intros H [n [Hin Hid]].
  pose proof (find_none _ _ H n Hin) as Hf. simpl in Hf.
  apply String.eqb_neq in Hf. contradiction.
Qed.

Lemma startNode_found (allNodes : list Node) (id : string) :
  has_node id allNodes -> exists m, startNode allNodes id = Some m.
Proof.
  intros Hn. destruct (startNode allNodes id) as [m |] eqn:H.
  - now exists m.
  - apply startNode_none in H. contradiction.
Qed.

Lemma In_agentNodes (allNodes : list Node) (allEdges : list Edge)
    (id : string) (n : Node) :
  In n (agentNodes allNodes allEdges id) <->
  startNode allNodes id = Some n \/
  (In n allNodes /\ node_id n <> id /\ path allEdges id (node_id n)).
Proof.
  unfold agentNodes. rewrite in_app_iff, filter_In, has_In.
  rewrite reachableNodes_iff.
  destruct (startNode allNodes id) as [m |]; simpl.
  - split.
    + intros [[-> | []] | H]; [now left | now right].
    + intros [H | H]; [left; left; congruence | now right].
  - split.
    + intros [[] | H]. now right.
    + intros [H | H]; [discriminate | now right].
Qed.


Lemma has_node_agentNodes (allNodes : list Node) (allEdges : list Edge)
    (id x : string) :
  has_node x (agentNodes allNodes allEdges id) <->
  has_node x allNodes /\ (x = id \/ path allEdges id x).
Proof.
  split.
  - intros [n [Hin Hid]]. apply In_agentNodes in Hin.
    destruct Hin as [H | (H1 & H2 & H3)].
    + apply startNode_some in H. destruct H as [Hn Hs]. split.
      * now exists n.
      * left. congruence.
    + split; [now exists n | right; now subst x].
  - intros [Hn Hr]. destruct (string_dec x id) as [-> | Hne].
    + destruct (startNode_found Hn) as [m Hm]. exists m. split.
      * apply In_agentNodes. now left.
      * now apply startNode_some in Hm.
    + destruct Hn as [n [Hin Hid]]. exists n. split; [| assumption].
      apply In_agentNodes. right. subst x. intuition congruence.
Qed.

Lemma NoDup_map_inj {A B : Type} (f : A -> B) (l : list A) (a b : A) :
  NoDup (map f l) -> In a l -> In b l -> f a = f b -> a = b.
Proof.
  induction l as [| c l IH]; intros Hnd Ha Hb Heq; [destruct Ha |].
  simpl in Hnd. inversion Hnd as [| ? ? Hnot Hnd']; subst.
  destruct Ha as [-> | Ha]; destruct Hb as [-> | Hb].
  - reflexivity.
  - exfalso. apply Hnot. rewrite Heq. now apply in_map.
  - exfalso. apply Hnot. rewrite <- Heq. now apply in_map.
  - now apply IH.
Qed.

Lemma count_id_app (x : string) (l1 l2 : list Node) :
  count_id x (l1 ++ l2) = count_id x l1 + count_id x l2.
Proof.
  unfold count_id. now rewrite filter_app, length_app.
Qed.

Lemma count_id_zero (x : string) (l : list Node) :
  (forall n, In n l -> node_id n <> x) -> count_id x l = 0.
Proof.
  unfold count_id. induction l as [| a l IH]; intros H; simpl.
  - reflexivity.
  - destruct (String.eqb_spec (node_id a) x) as [He | Hne].
    + exfalso. apply (H a); [now left | assumption].
    + apply IH. intros n Hn. apply H. now right.
Qed.

Lemma count_id_unique (x : string) (l : list Node) :
  NoDup (map (@node_id Data Position) l) -> has_node x l ->
  count_id x l = 1.
Proof.
  unfold count_id. induction l as [| a l IH]; intros Hnd [n [Hin Hid]].
  - destruct Hin.
  - simpl in Hnd. inversion Hnd as [| ? ? Hnot Hnd']; subst. simpl.
    destruct (String.eqb_spec (node_id a) (node_id n)) as [He | Hne].
    + simpl. f_equal. apply (@count_id_zero (node_id n) l).
      intros m Hm Hmid. apply Hnot. rewrite He, <- Hmid. now apply in_map.
    + apply IH; [assumption |]. destruct Hin as [-> | Hin].
      * congruence.
      * now exists n.
Qed.

Lemma count_id_filter (x : string) (f : Node -> bool) (l : list Node) :
  (forall n, In n l -> node_id n = x -> f n = true) ->
  count_id x (filter f l) = count_id x l.
Proof.
  unfold count_id. induction l as [| a l IH]; intros H; simpl.
  - reflexivity.
  - assert (IH' : length (filter (fun node => node_id node =? x)
                                 (filter f l)) =
                  length (filter (fun node => node_id node =? x) l)).
    { apply IH. intros n Hn. apply H. now right. }
    destruct (String.eqb_spec (node_id a) x) as [He | Hne].
    + rewrite (H a (or_introl eq_refl) He). simpl.
      apply String.eqb_eq in He. rewrite He. simpl. now rewrite IH'.
    + destruct (f a); simpl; [| assumption].
      apply String.eqb_neq in Hne. now rewrite Hne.
Qed.

Lemma filter_nil {A : Type} (f : A -> bool) (l : list A) :
  (forall a, In a l -> f a = false) -> filter f l = [].
Proof.
  induction l as [| a l IH]; intros H; simpl; [reflexivity |].
  rewrite (H a (or_introl eq_refl)). apply IH.
  intros b Hb. apply H. now right.
Qed.

End NodeLists.

Lemma path_first (allEdges : list Edge) (x y : string) :
  path allEdges x y -> exists e, In e allEdges /\ source e = x.
Proof.
  intros H. destruct H as [e He | e z He _]; now exists e.
Qed.

Lemma path_last (allEdges : list Edge) (x y : string) :
  path allEdges x y ->
  exists e, In e allEdges /\ target e = y /\
            (source e = x \/ path allEdges x (source e)).
Proof.
  intros H. induction H as [e He | e z He Hp IH].
  - exists e. auto.
  - destruct IH as [e' (He' & Ht & [Hs | Hs])].
    + exists e'. repeat split; try assumption. right.
      rewrite Hs. now apply path_one.
    + exists e'. repeat split; try assumption. right.
      now apply path_cons.
Qed.

Lemma path_snoc (allEdges : list Edge) (x : string) (e : Edge) :
  In e allEdges -> path allEdges x (source e) ->
  path allEdges x (target e).
Proof.
  intros He H. remember (source e) as y eqn:Hy.
  induction H as [e1 He1 | e1 z He1 Hp IH].
  - apply path_cons; [assumption |]. rewrite Hy. now apply path_one.
  - apply path_cons; [assumption |]. now apply IH.
Qed.

Lemma In_validEdges (allEdges : list Edge) (id : string) (e : Edge) :
  In e (validEdges allEdges id) <->
  In e allEdges /\
  (source e = id \/ path allEdges id (source e)) /\
  (target e = id \/ path allEdges id (target e)).
Proof.
  unfold validEdges. rewrite filter_In, andb_true_iff, !has_In.
  now rewrite !reachableNodeIds_iff.
Qed.

(** ** Reachability *)

Section Reachability.

Context {Data Position : Type}.

Local Abbreviation Node := (Node Data Position).

(** C1. In a graph whose node ids are unique, a node of the input list is in
    the output node list exactly when its id is the start id or a directed
    path of edges leads from the start id to its id. *)
Theorem agentNodes_iff_path (allNodes : list Node) (allEdges : list Edge)
    (id : string) (n : Node) :
  NoDup (map (@node_id Data Position) allNodes) ->
  In n allNodes ->
  (In n (agentNodes allNodes allEdges id) <->
   node_id n = id \/ path allEdges id (node_id n)).
Proof.
  intros Hnd Hin. rewrite In_agentNodes. split.
  - intros [H | H].
    + apply startNode_some in H. now left.
    + right. tauto.
  - intros H. destruct (string_dec (node_id n) id) as [He | Hne].
    + left. destruct (@startNode_found _ _ allNodes id) as [m Hm].
      { now exists n. }
      rewrite Hm. f_equal. apply startNode_some in Hm.
      destruct Hm as [Hm1 Hm2].
      apply (@NoDup_map_inj _ _ (@node_id Data Position) allNodes);
        try assumption.
      congruence.
    + right. intuition congruence.
Qed.



End Reachability.

(** ** The request *)

Section Request.

Context {Data Position : Type}.

Local Abbreviation Node := (Node Data Position).



Lemma agentModels_acc (allAgentModels : string -> option ModelItem)
    (nodes : list Node) (acc : list AgentModel) :
  fold_left
    (fun acc node =>
       match allAgentModels (node_id node) with
       | Some model =>
           acc ++ [{| agent_id := node_id node;
                      am_model_name := item_model_name model;
                      am_model_provider := item_provider model |}]
       | None => acc
       end)
    nodes acc
  = acc ++ flat_map (assignment_of allAgentModels) nodes.
Proof.
  revert acc. induction nodes as [| n nodes IH]; intros acc; simpl.
  - now rewrite app_nil_r.
  - rewrite IH. unfold assignment_of at 2.
    destruct (allAgentModels (node_id n)); simpl.
    + now rewrite <- app_assoc.
    + reflexivity.
Qed.

Lemma count_agent_flat_map (allAgentModels : string -> option ModelItem)
    (nodes : list Node) (x : string) :
  count_agent x (flat_map (assignment_of allAgentModels) nodes) =
  match allAgentModels x with
  | Some _ => count_id x nodes
  | None => 0
  end.
Proof.
  unfold count_agent, count_id.
  induction nodes as [| n nodes IH]; simpl.
  - now destruct (allAgentModels x).
  - rewrite filter_app, length_app, IH. unfold assignment_of.
    destruct (String.eqb_spec (node_id n) x) as [He | Hne].
    + rewrite He. destruct (allAgentModels x); simpl.
      * now rewrite String.eqb_refl.
      * reflexivity.
    + destruct (allAgentModels (node_id n)); simpl.
      * apply String.eqb_neq in Hne. rewrite Hne. simpl.
        now destruct (allAgentModels x).
      * now destruct (allAgentModels x).
Qed.

(** C7. The assignment list holds, in node-list order, one entry per node
    for which the lookup answers, carrying the node's id and the answer's
    name and provider, and nothing for a node for which it does not. *)
Theorem agentModels_spec (allAgentModels : string -> option ModelItem)
    (nodes : list Node) :
  agentModels allAgentModels nodes =
    flat_map (assignment_of allAgentModels) nodes /\
  (forall a, In a (agentModels allAgentModels nodes) <->
     exists n model,
       In n nodes /\ allAgentModels (node_id n) = Some model /\
       a = {| agent_id := node_id n;
              am_model_name := item_model_name model;
              am_model_provider := item_provider model |}) /\
  (forall x,
     count_agent x (agentModels allAgentModels nodes) =
     match allAgentModels x with
     | Some _ => count_id x nodes
     | None => 0
     end).
Proof.
  assert (Heq : agentModels allAgentModels nodes =
                flat_map (assignment_of allAgentModels) nodes).
  { unfold agentModels. now rewrite agentModels_acc. }
  split; [assumption |]. rewrite Heq. split.
  - intros a. rewrite in_flat_map. unfold assignment_of. split.
    + intros [n [Hn Ha]].
      destruct (allAgentModels (node_id n)) as [model |] eqn:Hm.
      * destruct Ha as [<- | []]. now exists n, model.
      * destruct Ha.
    + intros [n [model (Hn & Hm & ->)]]. exists n. split; [assumption |].
      rewrite Hm. now left.
  - intros x. apply count_agent_flat_map.
Qed.

(** C10. Whatever the world holds, the request [handlePlay] hands to
    [runFlow] has an empty ticker list and neither global model field set. *)
Theorem request_constant_fields (id : string) (flowId : option string)
    (w : @World Data Position) :
  exists request,
    w_runFlow (handlePlay id flowId w) = w_runFlow w ++ [request] /\
    tickers request = [] /\
    model_name request = None /\
    model_provider request = None.
Proof.
  eexists. split; [reflexivity |]. repeat split.
Qed.

Lemma agentModels_ext (f g : string -> option ModelItem)
    (nodes : list Node) :
  (forall x, f x = g x) -> agentModels f nodes = agentModels g nodes.
Proof.
  intros H. unfold agentModels. rewrite !agentModels_acc. simpl.
  induction nodes as [| n nodes IH]; simpl; [reflexivity |].
  rewrite IH. unfold assignment_of. now rewrite H.
Qed.

End Request.

(** ** Edge cases of the traversal *)

Section EdgeCases.

Context {Data Position : Type}.

Local Abbreviation Node := (Node Data Position).

(** C5. When no input node carries the start id, the output node list holds
    no node with that id, the traversal still visits exactly the start id and
    the ids reachable from it, and every input node reachable from the start
    id is in the output; if moreover no edge leaves the start id, the output
    node list and the output edge list are empty. *)
Theorem start_absent (allNodes : list Node) (allEdges : list Edge)
    (id : string) :
  ~ has_node id allNodes ->
  ~ has_node id (agentNodes allNodes allEdges id) /\
  (forall x, In x (visited (run_dfs allEdges id)) <->
             x = id \/ path allEdges id x) /\
  (forall n, In n allNodes -> path allEdges id (node_id n) ->
             In n (agentNodes allNodes allEdges id)) /\
  ((forall e, In e allEdges -> source e <> id) ->
   agentNodes allNodes allEdges id = [] /\ validEdges allEdges id = []).
Proof.
  intros Habs. split; [| split; [| split]].
  - rewrite has_node_agentNodes. tauto.
  - intros x. rewrite visited_iff. unfold reaches. intuition congruence.
  - intros n Hn Hp. apply In_agentNodes. right. repeat split; auto.
    intros He. apply Habs. now exists n.
  - intros H.
    assert (Hnop : forall y, ~ path allEdges id y).
    { intros y Hp. apply path_first in Hp. destruct Hp as [e [He Hs]].
      now apply (H e). }
    split.
    + unfold agentNodes. destruct (startNode allNodes id) as [m |] eqn:Hm.
      * exfalso. apply Habs. apply startNode_some in Hm. now exists m.
      * simpl. apply filter_nil. intros n Hn. apply has_false.
        rewrite reachableNodes_iff. intros [_ Hp]. now apply (Hnop _ Hp).
    + unfold validEdges. apply filter_nil. intros e He.
      apply andb_false_iff. left. apply has_false.
      rewrite reachableNodeIds_iff. intros [Hs | Hp].
      * now apply (H e).
      * now apply (Hnop _ Hp).
Qed.

(** C6. The traversal returns, and returns the same state for every depth
    bound from [dfs_fuel] on; the start id, when an input node carries it,
    occurs exactly once in the output node list, also when it lies on a
    self-loop or a cycle; and with unique node ids every input node that is
    the start node or reachable from it occurs exactly once. *)
Theorem dfs_terminates_once (allNodes : list Node) (allEdges : list Edge)
    (id : string) :
  (exists st, forall fuel, dfs_fuel allEdges <= fuel ->
     dfs fuel allEdges id id dfs_init = Some st) /\
  (has_node id allNodes ->
   count_id id (agentNodes allNodes allEdges id) = 1) /\
  (NoDup (map (@node_id Data Position) allNodes) ->
   forall n, In n allNodes ->
     node_id n = id \/ path allEdges id (node_id n) ->
     count_id (node_id n) (agentNodes allNodes allEdges id) = 1).
Proof.
  assert (Hstart : has_node id allNodes ->
                   count_id id (agentNodes allNodes allEdges id) = 1).
  { intros Hn. unfold agentNodes. rewrite count_id_app.
    destruct (startNode_found Hn) as [m Hm]. rewrite Hm.
    apply startNode_some in Hm. destruct Hm as [_ Hm].
    rewrite (@count_id_zero _ _ id (filter _ allNodes)).
    - unfold count_id. simpl. apply String.eqb_eq in Hm. now rewrite Hm.
    - intros n Hin Hid. apply filter_In in Hin. destruct Hin as [_ Hin].
      apply has_In in Hin. apply reachableNodes_iff in Hin. tauto. }
  split; [| split].
  - exists (run_dfs allEdges id). intros fuel Hle.
    apply dfs_fuel_mono with (fuel := dfs_fuel allEdges);
      [assumption | apply run_dfs_eq].
  - exact Hstart.
  - intros Hnd n Hin Hr.
    destruct (string_dec (node_id n) id) as [He | Hne].
    + rewrite He. apply Hstart. now exists n.
    + destruct Hr as [Hr | Hr]; [contradiction |].
      unfold agentNodes. rewrite count_id_app.
      rewrite (@count_id_zero _ _ (node_id n) (spread_option _)).
      * rewrite count_id_filter.
        -- apply count_id_unique; [assumption | now exists n].
        -- intros m _ Hm. apply has_In. apply reachableNodes_iff.
           rewrite Hm. now split.
      * intros m Hm Hmid. destruct (startNode allNodes id) as [m' |] eqn:Hs;
          simpl in Hm; [| destruct Hm].
        destruct Hm as [<- | []]. apply startNode_some in Hs.
        destruct Hs as [_ Hs]. congruence.
Qed.

(** C8, as the code has it. An id reachable from the start id that no input
    node carries is still put into the reachable set and no output node
    carries it; every edge leaving it is in the output edge list, an edge
    entering it is in the output edge list exactly when its source is the
    start id or reachable from it, and at least one edge entering it is.
    When no input node carries the start id, no output node carries it,
    every edge leaving the start id is in the output edge list, and an edge
    entering it is exactly when its source is the start id or reachable. *)
Theorem phantom_ids_kept (allNodes : list Node) (allEdges : list Edge)
    (id : string) :
  (forall x, path allEdges id x -> x <> id -> ~ has_node x allNodes ->
     In x (reachableNodes (run_dfs allEdges id)) /\
     ~ has_node x (agentNodes allNodes allEdges id) /\
     (forall e, In e allEdges -> source e = x ->
        In e (validEdges allEdges id)) /\
     (forall e, In e allEdges -> target e = x ->
        (In e (validEdges allEdges id) <->
         source e = id \/ path allEdges id (source e))) /\
     (exists e, In e (validEdges allEdges id) /\ target e = x)) /\
  (~ has_node id allNodes ->
   ~ has_node id (agentNodes allNodes allEdges id) /\
   (forall e, In e allEdges -> source e = id ->
      In e (validEdges allEdges id)) /\
   (forall e, In e allEdges -> target e = id ->
      (In e (validEdges allEdges id) <->
       source e = id \/ path allEdges id (source e)))).
Proof.
  split.
  - intros x Hp Hne Hno. split; [| split; [| split; [| split]]].
    + now apply reachableNodes_iff.
    + rewrite has_node_agentNodes. tauto.
    + intros e He Hs. apply In_validEdges. subst x. repeat split; auto.
      right. now apply path_snoc.
    + intros e He Ht. rewrite In_validEdges. subst x. tauto.
    + destruct (path_last Hp) as [e (He & Ht & Hs)]. exists e.
      split; [| assumption]. apply In_validEdges. subst x.
      repeat split; auto.
  - intros Hno. split; [| split].
    + rewrite has_node_agentNodes. tauto.
    + intros e He Hs. apply In_validEdges. repeat split; auto.
      right. rewrite <- Hs. now apply path_one.
    + intros e He Ht. rewrite In_validEdges. tauto.
Qed.

End EdgeCases.

(** ** Instances *)

Lemma NoDup_ids_tree :
  NoDup (map (@node_id unit unit) [nd "S"; nd "A"; nd "B"; nd "C"]).
Proof.
  simpl. repeat constructor; simpl; intuition discriminate.
Defined.

Lemma agentNodes_iff_path_witness :
  NoDup (map (@node_id unit unit) [nd "S"; nd "A"; nd "B"; nd "C"]) /\
  In (nd "B") [nd "S"; nd "A"; nd "B"; nd "C"] /\
  (In (nd "B")
      (agentNodes [nd "S"; nd "A"; nd "B"; nd "C"]
                  [ed "S" "A"; ed "A" "B"; ed "S" "C"] "S") <->
   node_id (nd "B") = "S" \/
   path [ed "S" "A"; ed "A" "B"; ed "S" "C"] "S" (node_id (nd "B"))).
Proof.
  split; [exact NoDup_ids_tree |]. split; [simpl; tauto |].
  apply (@agentNodes_iff_path unit unit
           [nd "S"; nd "A"; nd "B"; nd "C"]
           [ed "S" "A"; ed "A" "B"; ed "S" "C"] "S" (nd "B")).
  - exact NoDup_ids_tree.
  - simpl. tauto.
Defined.




Lemma start_absent_witness :
  ~ has_node "missing" [nd "A"; nd "B"] /\
  agentNodes [nd "A"; nd "B"] [ed "A" "B"] "missing" = [] /\
  validEdges [ed "A" "B"] "missing" = [].
Proof.
  assert (Habs : ~ has_node "missing" [nd "A"; nd "B"]).
  { intros [n [[<- | [<- | []]] H]]; discriminate. }
  split; [exact Habs |].
  destruct (@start_absent unit unit [nd "A"; nd "B"] [ed "A" "B"]
              "missing" Habs) as (_ & _ & _ & H).
  apply H. intros e [<- | []]. discriminate.
Defined.

Lemma NoDup_ids_cycle :
  NoDup (map (@node_id unit unit) [nd "S"; nd "A"]).
Proof.
  simpl. repeat constructor; simpl; intuition discriminate.
Defined.

Lemma dfs_terminates_once_witness :
  count_id "S" (agentNodes [nd "S"; nd "A"]
                  [ed "S" "S"; ed "S" "A"; ed "A" "S"] "S") = 1 /\
  count_id "A" (agentNodes [nd "S"; nd "A"]
                  [ed "S" "S"; ed "S" "A"; ed "A" "S"] "S") = 1.
Proof.
  destruct (@dfs_terminates_once unit unit [nd "S"; nd "A"]
              [ed "S" "S"; ed "S" "A"; ed "A" "S"] "S")
    as (_ & Hs & Hn).
  split.
  - apply Hs. exists (nd "S"). split; [simpl; tauto | reflexivity].
  - apply (Hn NoDup_ids_cycle (nd "A")).
    + simpl. tauto.
    + right. apply (@path_one _ (ed "S" "A")). simpl. tauto.
Defined.

(** C8 fails as stated: an edge that enters the phantom id from an id the
    traversal never reaches is dropped. *)
Lemma phantom_entering_edge_dropped :
  path [ed "S" "X"; ed "Z" "X"] "S" "X" /\
  ~ has_node "X" [nd "S"] /\
  In "X" (reachableNodes (run_dfs [ed "S" "X"; ed "Z" "X"] "S")) /\
  In (ed "Z" "X") [ed "S" "X"; ed "Z" "X"] /\
  target (ed "Z" "X") = "X" /\
  ~ In (ed "Z" "X") (validEdges [ed "S" "X"; ed "Z" "X"] "S").
Proof.
  split; [| split; [| split; [| split; [| split]]]].
  - apply (@path_one _ (ed "S" "X")). simpl. tauto.
  - intros [n [[<- | []] H]]. discriminate.
  - vm_compute. tauto.
  - simpl. tauto.
  - reflexivity.
  - vm_compute. intros [H | []]. discriminate.
Qed.

Lemma phantom_ids_kept_witness :
  path [ed "S" "X"] "S" "X" /\
  ~ has_node "X" [nd "S"] /\
  exists e,
    In e (validEdges [ed "S" "X"] "S") /\ target e = "X" /\
    ~ has_node (target e) (agentNodes [nd "S"] [ed "S" "X"] "S").
Proof.
  assert (Hp : path [ed "S" "X"] "S" "X").
  { apply (@path_one _ (ed "S" "X")). simpl. tauto. }
  assert (Hno : ~ has_node "X" [nd "S"]).
  { intros [n [[<- | []] H]]. discriminate. }
  split; [exact Hp |]. split; [exact Hno |].
  destruct (@phantom_ids_kept unit unit [nd "S"] [ed "S" "X"] "S")
    as [H _].
  destruct (H "X" Hp) as (_ & Hout & _ & _ & [e [He Ht]]).
  - discriminate.
  - exact Hno.
  - exists e. split; [exact He |]. split; [exact Ht |].
    rewrite Ht. exact Hout.
Defined.

(** The request of the cycle scenario, with a model for [A] only. *)
Example request_cycle :
  runRequest [nd "S"; nd "A"] [ed "S" "A"; ed "A" "S"] "S"
    (fun x => if String.eqb x "A" then Some (mkModelItem "m" "p") else None)
  = {| tickers := [];
       graph_nodes := [toGraphNode (nd "S"); toGraphNode (nd "A")];
       graph_edges := [ed "S" "A"; ed "A" "S"];
       agent_models := [mkAgentModel "A" "m" "p"];
       model_name := None;
       model_provider := None |}.
Proof. reflexivity. Qed.

(** * Further properties of the traversal *)

Lemma for_of_preorder {A S : Type} (R : S -> S -> Prop)
    (body : A -> S -> option S) :
  (forall s, R s s) ->
  (forall s1 s2 s3, R s1 s2 -> R s2 s3 -> R s1 s3) ->
  (forall a s s', body a s = Some s' -> R s s') ->
  forall l s s', for_of l body s = Some s' -> R s s'.
Proof.
  intros Hrefl Htrans Hbody. induction l as [| a l IH]; intros s s' H;
    simpl in H.
  - inversion H; subst. apply Hrefl.
  - destruct (body a s) as [s2 |] eqn:Hb; [| discriminate].
    apply Htrans with (s2 := s2); [exact (Hbody _ _ _ Hb) | now apply IH].
Qed.

Lemma NoDup_snoc {A : Type} (l : list A) (x : A) :
  NoDup l -> ~ In x l -> NoDup (l ++ [x]).
Proof.
  induction l as [| a l IH]; intros Hnd Hx; simpl.
  - constructor; [intros [] | constructor].
  - inversion Hnd as [| ? ? Ha Hnd']; subst. constructor.
    + rewrite in_app_iff. simpl. intros [H | [H | []]].
      * contradiction.
      * apply Hx. now left.
    + apply IH; [assumption |]. intros H. apply Hx. now right.
Qed.

Lemma extends_visited_refl (st : DfsState) : extends_visited st st.
Proof.
  split; [exists []; now rewrite app_nil_r | auto].
Qed.

Lemma extends_visited_trans (s1 s2 s3 : DfsState) :
  extends_visited s1 s2 -> extends_visited s2 s3 -> extends_visited s1 s3.
Proof.
  intros [[l1 H1] N1] [[l2 H2] N2]. split.
  - exists (l1 ++ l2). now rewrite H2, H1, app_assoc.
  - auto.
Qed.

Lemma dfs_extends (allEdges : list Edge) (id : string) :
  forall fuel x st st', dfs fuel allEdges id x st = Some st' ->
    extends_visited st st'.
Proof.
  induction fuel as [| fuel IH]; intros x st st' H; simpl in H.
  - discriminate.
  - destruct (JSSet.has x (visited st)) eqn:Hx.
    + inversion H; subst. apply extends_visited_refl.
    + apply has_false in Hx.
      apply (@for_of_preorder _ _ extends_visited) in H.
      * eapply extends_visited_trans; [| exact H]. simpl. split; simpl.
        -- exists [x]. now apply add_fresh.
        -- intros Hnd. rewrite (@add_fresh x (visited st) Hx).
           now apply NoDup_snoc.
      * apply extends_visited_refl.
      * apply extends_visited_trans.
      * intros e s1 s2 Hb. now apply IH in Hb.
Qed.

Lemma run_dfs_unfold (allEdges : list Edge) (id : string) :
  for_of (filter (fun edge => String.eqb (source edge) id) allEdges)
    (fun edge st' =>
       dfs (S (length allEdges)) allEdges id (target edge) st')
    {| visited := [id]; reachableNodes := [] |}
  = Some (run_dfs allEdges id).
Proof.
  rewrite <- run_dfs_eq. unfold dfs_fuel. simpl.
  now rewrite String.eqb_refl.
Qed.

Lemma filter_all {A : Type} (f : A -> bool) (l : list A) :
  (forall a, In a l -> f a = true) -> filter f l = l.
Proof.
  induction l as [| a l IH]; intros H; simpl; [reflexivity |].
  rewrite (H a (or_introl eq_refl)). f_equal. apply IH.
  intros b Hb. apply H. now right.
Qed.

Lemma visited_NoDup (allEdges : list Edge) (id : string) :
  NoDup (visited (run_dfs allEdges id)).
Proof.
  pose proof (run_dfs_unfold allEdges id) as H.
  apply (@for_of_preorder _ _ extends_visited) in H.
  - destruct H as [_ H]. apply H. simpl. constructor; [intros [] |].
    constructor.
  - apply extends_visited_refl.
  - apply extends_visited_trans.
  - intros e s1 s2 Hb. now apply dfs_extends in Hb.
Qed.

Lemma visited_cons (allEdges : list Edge) (id : string) :
  visited (run_dfs allEdges id) = id :: reachableNodes (run_dfs allEdges id).
Proof.
  pose proof (run_dfs_unfold allEdges id) as H.
  apply (@for_of_preorder _ _ extends_visited) in H.
  - destruct H as [[l Hl] _]. simpl in Hl.
    pose proof (visited_NoDup allEdges id) as Hnd.
    rewrite reachableNodes_eq. rewrite Hl in Hnd |- *. simpl.
    rewrite String.eqb_refl. simpl. f_equal. symmetry.
    apply filter_all. intros y Hy. apply negb_true_iff.
    apply String.eqb_neq. intros ->.
    inversion Hnd; subst. contradiction.
  - apply extends_visited_refl.
  - apply extends_visited_trans.
  - intros e s1 s2 Hb. now apply dfs_extends in Hb.
Qed.

Lemma fold_add_NoDup (l : list string) (acc : JSSet.t) :
  NoDup (acc ++ l) ->
  fold_left (fun s x => JSSet.add x s) l acc = acc ++ l.
Proof.
  revert acc. induction l as [| a l IH]; intros acc Hnd; simpl.
  - now rewrite app_nil_r.
  - assert (Ha : ~ In a acc).
    { intros Hin. apply (NoDup_remove_2 _ _ _ Hnd).
      apply in_or_app. now left. }
    rewrite (@add_fresh a acc Ha), IH.
    + now rewrite <- app_assoc.
    + now rewrite <- app_assoc.
Qed.

(** X1. When the traversal is over, [visited] is the start id followed by
    [reachableNodes] in discovery order, it holds no id twice, and the set
    [reachableNodeIds] built for the edge filter is [visited] again. *)
Theorem visited_structure (allEdges : list Edge) (id : string) :
  visited (run_dfs allEdges id) =
    id :: reachableNodes (run_dfs allEdges id) /\
  NoDup (visited (run_dfs allEdges id)) /\
  reachableNodeIds allEdges id = visited (run_dfs allEdges id).
Proof.
  split; [apply visited_cons |]. split; [apply visited_NoDup |].
  unfold reachableNodeIds, JSSet.of_list, JSSet.empty.
  rewrite fold_add_NoDup; simpl.
  - symmetry. apply visited_cons.
  - rewrite <- visited_cons. apply visited_NoDup.
Qed.

(** X2. The traversal marks at most one id per edge besides the start id:
    [reachableNodes] never holds more ids than there are edges. *)
Theorem reachableNodes_bound (allEdges : list Edge) (id : string) :
  length (reachableNodes (run_dfs allEdges id)) <= length allEdges.
Proof.
  pose proof (visited_NoDup allEdges id) as Hnd.
  rewrite visited_cons in Hnd. inversion Hnd as [| ? ? _ Hnd']; subst.
  rewrite <- (length_map target allEdges).
  apply NoDup_incl_length; [assumption |].
  intros y Hy. apply reachableNodes_iff in Hy. destruct Hy as [_ Hp].
  apply path_last in Hp. destruct Hp as [e (He & Ht & _)].
  rewrite <- Ht. now apply in_map.
Qed.

Lemma for_of_discovery (allEdges : list Edge) (id : string) (fuel : nat) :
  (forall x st st', dfs fuel allEdges id x st = Some st' ->
     discovery_order allEdges (visited st) ->
     (visited st = [] \/
      exists e, In e allEdges /\ In (source e) (visited st) /\
                target e = x) ->
     discovery_order allEdges (visited st')) ->
  forall l st st',
    (forall e, In e l -> In e allEdges /\ In (source e) (visited st)) ->
    discovery_order allEdges (visited st) ->
    for_of l (fun e s => dfs fuel allEdges id (target e) s) st = Some st' ->
    discovery_order allEdges (visited st').
Proof.
  intros Hdfs. induction l as [| e l IH]; intros st st' Hl Hd H;
    simpl in H.
  - inversion H; subst. assumption.
  - destruct (dfs fuel allEdges id (target e) st) as [st2 |] eqn:Hb;
      [| discriminate].
    destruct (Hl e (or_introl eq_refl)) as [He Hs].
    apply (IH st2 st'); [| | assumption].
    + intros e' He'. destruct (Hl e' (or_intror He')) as [H1 H2].
      split; [assumption |]. apply dfs_ok in Hb. destruct Hb as [Hi _].
      now apply Hi.
    + apply (Hdfs _ _ _ Hb Hd). right. now exists e.
Qed.

Lemma dfs_discovery (allEdges : list Edge) (id : string) :
  forall fuel x st st', dfs fuel allEdges id x st = Some st' ->
    discovery_order allEdges (visited st) ->
    (visited st = [] \/
     exists e, In e allEdges /\ In (source e) (visited st) /\
               target e = x) ->
    discovery_order allEdges (visited st').
Proof.
  induction fuel as [| fuel IH]; intros x st st' H Hd Hx; simpl in H.
  - discriminate.
  - destruct (JSSet.has x (visited st)) eqn:Hv.
    + inversion H; subst. assumption.
    + apply has_false in Hv.
      apply (@for_of_discovery allEdges id fuel IH) in H;
        [assumption | |]; simpl.
      * intros e He. apply filter_In in He. destruct He as [He Hs].
        apply String.eqb_eq in Hs. split; [assumption |].
        rewrite Hs. apply add_In. now left.
      * rewrite (@add_fresh x (visited st) Hv).
        destruct Hx as [Hx | [e (He & Hs & Ht)]].
        -- rewrite Hx. simpl. apply discovery_first.
        -- now apply discovery_snoc with (e := e).
Qed.

Lemma discovery_order_split (allEdges : list Edge) (l : list string) :
  discovery_order allEdges l ->
  forall l1 y l2, l = l1 ++ y :: l2 -> l1 <> [] ->
    exists e, In e allEdges /\ In (source e) l1 /\ target e = y.
Proof.
  intros H. induction H as [| x | l y' e Hd IH He Hs Ht];
    intros l1 y l2 Heq Hne.
  - destruct l1; discriminate.
  - destruct l1 as [| a l1]; [congruence |].
    destruct l1; discriminate.
  - revert Heq. induction l2 as [| z l2' _] using rev_ind; intros Heq.
    + apply app_inj_tail in Heq. destruct Heq as [Hl Hy]. subst.
      now exists e.
    + rewrite app_comm_cons, app_assoc in Heq.
      apply app_inj_tail in Heq. destruct Heq as [Hl _].
      now apply (IH l1 y l2').
Qed.

(** X3. Discovery order is a traversal order: every id of [reachableNodes]
    is the target of an edge whose source is the start id or an id
    discovered before it. *)
Theorem reachableNodes_discovery (allEdges : list Edge) (id : string)
    (l1 l2 : list string) (y : string) :
  reachableNodes (run_dfs allEdges id) = l1 ++ y :: l2 ->
  exists e, In e allEdges /\ target e = y /\
            (source e = id \/ In (source e) l1).
Proof.
  intros Hsplit.
  assert (Hd : discovery_order allEdges (visited (run_dfs allEdges id))).
  { apply (@dfs_discovery allEdges id _ _ _ _ (run_dfs_eq allEdges id)).
    - apply discovery_nil.
    - now left. }
  rewrite visited_cons, Hsplit in Hd.
  destruct (@discovery_order_split allEdges _ Hd (id :: l1) y l2)
    as [e (He & Hs & Ht)].
  - reflexivity.
  - discriminate.
  - exists e. repeat split; try assumption.
    destruct Hs as [Hs | Hs]; [left; congruence | now right].
Qed.

(** * Further properties of the extracted subgraph *)

Lemma has_ext (x : string) (s1 s2 : JSSet.t) :
  (In x s1 <-> In x s2) -> JSSet.has x s1 = JSSet.has x s2.
Proof.
  intros H. apply eq_true_iff_eq. now rewrite !has_In.
Qed.

Lemma path_incl (E E' : list Edge) (x y : string) :
  incl E E' -> path E x y -> path E' x y.
Proof.
  intros Hi Hp. induction Hp as [e He | e z He Hp IH].
  - apply path_one. now apply Hi.
  - apply path_cons; [now apply Hi | assumption].
Qed.

Lemma validEdges_incl (allEdges : list Edge) (id : string) :
  incl (validEdges allEdges id) allEdges.
Proof.
  intros e He. apply In_validEdges in He. tauto.
Qed.

Lemma out_edge_valid (allEdges : list Edge) (id : string) (e : Edge) :
  In e allEdges ->
  source e = id \/ path allEdges id (source e) ->
  In e (validEdges allEdges id).
Proof.
  intros He Hs. apply In_validEdges. repeat split; try assumption.
  right. destruct Hs as [Hs | Hs].
  - rewrite <- Hs. now apply path_one.
  - now apply path_snoc.
Qed.

Lemma path_validEdges (allEdges : list Edge) (id x : string) :
  path (validEdges allEdges id) id x <-> path allEdges id x.
Proof.
  split.
  - apply path_incl. apply validEdges_incl.
  - assert (Hgen : forall a b, path allEdges a b ->
               a = id \/ path allEdges id a ->
               path (validEdges allEdges id) a b).
    { intros a b Hp. induction Hp as [e He | e z He Hp IH]; intros Ha.
      - apply path_one. now apply out_edge_valid.
      - assert (Hv : In e (validEdges allEdges id))
          by now apply out_edge_valid.
        apply path_cons; [assumption |]. apply IH.
        apply In_validEdges in Hv. tauto. }
    intros Hp. apply Hgen; [assumption | now left].
Qed.

Lemma filter_idem {A : Type} (f : A -> bool) (l : list A) :
  filter f (filter f l) = filter f l.
Proof.
  apply filter_all. intros a Ha. apply filter_In in Ha. tauto.
Qed.

Lemma find_filter_none {A : Type} (f g : A -> bool) (l : list A) :
  find f l = None -> find f (filter g l) = None.
Proof.
  induction l as [| a l IH]; simpl; [reflexivity |].
  destruct (f a) eqn:Hf; [discriminate |]. intros H.
  destruct (g a); simpl; [rewrite Hf |]; now apply IH.
Qed.

(** X4. The target test of the edge filter never rejects an edge: the output
    edge list is the input edge list restricted to the edges that leave the
    start id or a reachable id, so every edge leaving an included id is
    output. *)
Theorem validEdges_by_source (allEdges : list Edge) (id : string) :
  validEdges allEdges id =
  filter (fun edge => JSSet.has (source edge) (reachableNodeIds allEdges id))
         allEdges.
Proof.
  unfold validEdges. apply filter_ext_in. intros e He.
  destruct (JSSet.has (source e) (reachableNodeIds allEdges id)) eqn:Hs;
    [| reflexivity].
  simpl. apply has_In. apply reachableNodeIds_iff.
  apply has_In in Hs. apply reachableNodeIds_iff in Hs.
  assert (Hv : In e (validEdges allEdges id)) by now apply out_edge_valid.
  apply In_validEdges in Hv. tauto.
Qed.

Section Subgraph.

Context {Data Position : Type}.

Local Abbreviation Node := (Node Data Position).

Lemma agentNodes_ext (allNodes : list Node) (E E' : list Edge)
    (id : string) :
  (forall x, path E id x <-> path E' id x) ->
  agentNodes allNodes E id = agentNodes allNodes E' id.
Proof.
  intros H. unfold agentNodes. f_equal. apply filter_ext. intros n.
  apply has_ext. now rewrite !reachableNodes_iff, H.
Qed.

Lemma validEdges_ext (E E' : list Edge) (id : string) (e : Edge) :
  (forall x, path E id x <-> path E' id x) ->
  JSSet.has (source e) (reachableNodeIds E id) &&
  JSSet.has (target e) (reachableNodeIds E id) =
  JSSet.has (source e) (reachableNodeIds E' id) &&
  JSSet.has (target e) (reachableNodeIds E' id).
Proof.
  intros H. f_equal; apply has_ext; now rewrite !reachableNodeIds_iff, H.
Qed.

(** X5. Extraction is idempotent: run again on its own output, it returns
    that output, nodes and edges alike; the nodes are already determined by
    the output edges. *)
Theorem extraction_idempotent (allNodes : list Node) (allEdges : list Edge)
    (id : string) :
  validEdges (validEdges allEdges id) id = validEdges allEdges id /\
  agentNodes allNodes (validEdges allEdges id) id =
    agentNodes allNodes allEdges id /\
  agentNodes (agentNodes allNodes allEdges id) (validEdges allEdges id) id =
    agentNodes allNodes allEdges id.
Proof.
  assert (Hp : forall x, path (validEdges allEdges id) id x <->
                         path allEdges id x)
    by (intros x; apply path_validEdges).
  split; [| split].
  - unfold validEdges at 1.
    rewrite (filter_ext _ _ (fun e => @validEdges_ext _ _ id e Hp)).
    unfold validEdges. apply filter_idem.
  - now apply agentNodes_ext.
  - rewrite (@agentNodes_ext _ _ allEdges id Hp).
    unfold agentNodes at 1. unfold agentNodes.
    set (P := fun node : Node =>
           JSSet.has (node_id node) (reachableNodes (run_dfs allEdges id))).
    assert (HP : forall m : Node, node_id m = id -> P m = false).
    { intros m Hm. unfold P. apply has_false. rewrite reachableNodes_iff.
      tauto. }
    destruct (startNode allNodes id) as [m |] eqn:Hm.
    + apply startNode_some in Hm. destruct Hm as [_ Hm].
      unfold startNode. simpl. pose proof Hm as Hm'.
      apply String.eqb_eq in Hm'. rewrite Hm'. simpl.
      rewrite (HP m Hm). now rewrite filter_idem.
    + simpl. unfold startNode in *.
      rewrite (@find_filter_none _ _ P _ Hm). simpl. apply filter_idem.
Qed.

(** X6. Adding edges never removes anything: every node and every edge
    output for an edge list is output for any edge list that contains it. *)
Theorem extraction_monotone (allNodes : list Node) (E E' : list Edge)
    (id : string) :
  incl E E' ->
  incl (agentNodes allNodes E id) (agentNodes allNodes E' id) /\
  incl (validEdges E id) (validEdges E' id).
Proof.
  intros Hi. split.
  - intros n Hn. apply In_agentNodes in Hn. apply In_agentNodes.
    destruct Hn as [Hn | (H1 & H2 & H3)]; [now left | right].
    repeat split; try assumption. now apply path_incl with (E := E).
  - intros e He. apply In_validEdges in He. apply In_validEdges.
    destruct He as (H1 & H2 & H3). repeat split.
    + now apply Hi.
    + destruct H2; [now left | right; now apply path_incl with (E := E)].
    + destruct H3; [now left | right; now apply path_incl with (E := E)].
Qed.

(** X7. The output node list depends on the set of edges only: edge lists
    with the same members, in any order and multiplicity, give the same
    output node list. *)
Theorem agentNodes_edge_order (allNodes : list Node) (E E' : list Edge)
    (id : string) :
  (forall e, In e E <-> In e E') ->
  agentNodes allNodes E id = agentNodes allNodes E' id.
Proof.
  intros H. apply agentNodes_ext. intros x.
  split; apply path_incl; intros e He; now apply H.
Qed.


End Subgraph.

(** * Further properties of the request *)

Lemma count_occ_filter {A : Type} (dec : forall a b : A, {a = b} + {a <> b})
    (f : A -> bool) (l : list A) (a : A) :
  f a = true -> count_occ dec (filter f l) a = count_occ dec l a.
Proof.
  intros Hf. induction l as [| b l IH]; simpl; [reflexivity |].
  destruct (dec b a) as [-> | Hne].
  - rewrite Hf. simpl. destruct (dec a a); [now rewrite IH | congruence].
  - destruct (f b); simpl; [| assumption].
    destruct (dec b a); [contradiction | assumption].
Qed.

(** X9. Parallel edges are not merged: an edge whose source is the start id
    or reachable from it occurs in the output edge list as many times as in
    the input edge list. *)
Theorem validEdges_multiplicity (allEdges : list Edge) (id : string)
    (e : Edge) :
  source e = id \/ path allEdges id (source e) ->
  count_occ Edge_eq_dec (validEdges allEdges id) e =
  count_occ Edge_eq_dec allEdges e.
Proof.
  intros Hs. destruct (in_dec Edge_eq_dec e allEdges) as [He | Hn].
  - unfold validEdges. apply count_occ_filter.
    pose proof (@out_edge_valid allEdges id e He Hs) as Hv.
    unfold validEdges in Hv. apply filter_In in Hv. tauto.
  - rewrite (proj1 (count_occ_not_In Edge_eq_dec allEdges e) Hn).
    apply count_occ_not_In. intros Hv. apply Hn.
    now apply validEdges_incl in Hv.
Qed.

Section RequestShape.

Context {Data Position : Type}.

Local Abbreviation Node := (Node Data Position).




Lemma NoDup_map_filter {A B : Type} (f : A -> B) (g : A -> bool)
    (l : list A) :
  NoDup (map f l) -> NoDup (map f (filter g l)).
Proof.
  induction l as [| a l IH]; simpl; intros H; [constructor |].
  inversion H as [| ? ? Hn Hnd]; subst. destruct (g a); simpl.
  - constructor; [| now apply IH]. intros Hin. apply Hn.
    apply in_map_iff in Hin. destruct Hin as [b [Hb Hin]].
    apply filter_In in Hin. rewrite <- Hb. apply in_map. tauto.
  - now apply IH.
Qed.

Lemma agent_ids (allAgentModels : string -> option ModelItem)
    (nodes : list Node) :
  map agent_id (agentModels allAgentModels nodes) =
  filter (has_model allAgentModels) (map (@node_id _ _) nodes).
Proof.
  unfold agentModels. rewrite agentModels_acc. simpl.
  induction nodes as [| n nodes IH]; simpl; [reflexivity |].
  rewrite map_app, IH. unfold assignment_of, has_model.
  now destruct (allAgentModels (node_id n)).
Qed.

Lemma graph_node_ids (nodes : list Node) :
  map (@gn_id _ _) (map toGraphNode nodes) = map (@node_id _ _) nodes.
Proof.
  rewrite map_map. reflexivity.
Qed.

(** X11. Unique ids survive: when the input node ids are pairwise distinct,
    so are the ids of the request's nodes and the agent ids of its model
    assignments. *)
Theorem request_ids_unique (allNodes : list Node) (allEdges : list Edge)
    (id : string) (allAgentModels : string -> option ModelItem) :
  NoDup (map (@node_id Data Position) allNodes) ->
  NoDup (map (@gn_id Data Position)
           (graph_nodes
              (runRequest allNodes allEdges id allAgentModels))) /\
  NoDup (map agent_id
           (agent_models
              (runRequest allNodes allEdges id allAgentModels))).
Proof.
  intros Hnd.
  assert (Hids : NoDup (map (@node_id Data Position)
                          (agentNodes allNodes allEdges id))).
  { unfold agentNodes. rewrite map_app.
    set (P := fun node : Node =>
           JSSet.has (node_id node) (reachableNodes (run_dfs allEdges id))).
    pose proof (@NoDup_map_filter _ _ (@node_id Data Position) P _ Hnd)
      as Hf.
    destruct (startNode allNodes id) as [m |] eqn:Hm; simpl;
      [| assumption].
    apply startNode_some in Hm. destruct Hm as [_ Hm].
    constructor; [| assumption]. intros Hin. apply in_map_iff in Hin.
    destruct Hin as [n [Hn Hin]]. apply filter_In in Hin.
    destruct Hin as [_ Hin]. unfold P in Hin. apply has_In in Hin.
    apply reachableNodes_iff in Hin. destruct Hin as [Hne _].
    congruence. }
  simpl. split.
  - now rewrite graph_node_ids.
  - rewrite agent_ids. now apply NoDup_filter.
Qed.

(** X12. The model assignments follow the node list of the request: their
    agent ids are, in order, the ids of the request's nodes for which the
    table has an entry, so no assignment names a node outside the
    request. *)
Theorem agent_models_follow_nodes (allNodes : list Node)
    (allEdges : list Edge) (id : string)
    (allAgentModels : string -> option ModelItem) :
  let request := runRequest allNodes allEdges id allAgentModels in
  map agent_id (agent_models request) =
    filter (has_model allAgentModels)
           (map (@gn_id Data Position) (graph_nodes request)) /\
  forall a, In a (agent_models request) ->
    exists g, In g (graph_nodes request) /\ gn_id g = agent_id a.
Proof.
  simpl.
  assert (H : map agent_id
                (agentModels allAgentModels
                   (agentNodes allNodes allEdges id)) =
              filter (has_model allAgentModels)
                (map (@gn_id Data Position)
                   (map toGraphNode (agentNodes allNodes allEdges id)))).
  { now rewrite agent_ids, graph_node_ids. }
  split; [exact H |].
  intros a Ha. apply (in_map agent_id) in Ha. rewrite H in Ha.
  apply filter_In in Ha. destruct Ha as [Ha _].
  apply in_map_iff in Ha. destruct Ha as [g [Hg Hin]]. now exists g.
Qed.

End RequestShape.

(** * The button *)

(** X14. Stopping is never blocked: whenever the button is bound to
    [handleStop] it is enabled, and a disabled button is always one that
    would have run the flow while [canRun] is off. *)
Theorem stop_never_disabled (c : Connection) :
  (onClick c = HandleStop -> disabled c = false) /\
  (disabled c = true -> onClick c = HandlePlay /\ canRun c = false).
Proof.
  unfold onClick, disabled. destruct (showAsProcessing c), (canRun c);
    simpl; repeat split; congruence.
Qed.

(** X15. The name shown on the node is never empty: it is the default name
    when the node's name is missing or the empty string, and the node's own
    name otherwise. *)
Theorem shellName_nonempty (name : option string) :
  shellName name <> "" /\
  (name = None \/ name = Some "" ->
   shellName name = "Macro News Opportunities") /\
  (forall s, name = Some s -> s <> "" -> shellName name = s).
Proof.
  split; [| split].
  - destruct name as [[| a s] |]; simpl; discriminate.
  - intros [-> | ->]; reflexivity.
  - intros s -> Hs. destruct s; [congruence | reflexivity].
Qed.

(** * Further instances *)

Lemma reachableNodes_discovery_witness :
  reachableNodes (run_dfs [ed "S" "B"; ed "B" "A"] "S") = ["B"] ++ "A" :: [] /\
  exists e, In e [ed "S" "B"; ed "B" "A"] /\ target e = "A" /\
            (source e = "S" \/ In (source e) ["B"]).
Proof.
  split; [reflexivity |].
  apply (@reachableNodes_discovery [ed "S" "B"; ed "B" "A"] "S"
           ["B"] [] "A").
  reflexivity.
Defined.

Lemma extraction_monotone_witness :
  incl [ed "S" "A"] [ed "S" "A"; ed "A" "B"] /\
  incl (agentNodes [nd "S"; nd "A"; nd "B"] [ed "S" "A"] "S")
       (agentNodes [nd "S"; nd "A"; nd "B"] [ed "S" "A"; ed "A" "B"] "S") /\
  incl (validEdges [ed "S" "A"] "S")
       (validEdges [ed "S" "A"; ed "A" "B"] "S").
Proof.
  assert (Hi : incl [ed "S" "A"] [ed "S" "A"; ed "A" "B"]).
  { intros e [<- | []]. simpl. tauto. }
  split; [exact Hi |].
  apply (@extraction_monotone unit unit [nd "S"; nd "A"; nd "B"]
           [ed "S" "A"] [ed "S" "A"; ed "A" "B"] "S" Hi).
Defined.

Lemma agentNodes_edge_order_witness :
  agentNodes [nd "S"; nd "A"; nd "B"] [ed "S" "A"; ed "A" "B"] "S" =
  agentNodes [nd "S"; nd "A"; nd "B"]
             [ed "A" "B"; ed "S" "A"; ed "S" "A"] "S".
Proof.
  apply (@agentNodes_edge_order unit unit [nd "S"; nd "A"; nd "B"]
           [ed "S" "A"; ed "A" "B"]
           [ed "A" "B"; ed "S" "A"; ed "S" "A"] "S").
  intros e. simpl. tauto.
Defined.


Lemma validEdges_multiplicity_witness :
  count_occ Edge_eq_dec
    (validEdges [ed "S" "A"; ed "X" "Y"; ed "S" "A"] "S") (ed "S" "A") =
  count_occ Edge_eq_dec [ed "S" "A"; ed "X" "Y"; ed "S" "A"] (ed "S" "A").
Proof.
  apply (@validEdges_multiplicity [ed "S" "A"; ed "X" "Y"; ed "S" "A"] "S"
           (ed "S" "A")).
  left. reflexivity.
Defined.


Lemma request_ids_unique_witness :
  NoDup (map (@gn_id unit unit)
           (graph_nodes
              (runRequest [nd "S"; nd "A"] [ed "S" "A"; ed "A" "S"] "S"
                 (fun _ => Some (mkModelItem "m" "p"))))) /\
  NoDup (map agent_id
           (agent_models
              (runRequest [nd "S"; nd "A"] [ed "S" "A"; ed "A" "S"] "S"
                 (fun _ => Some (mkModelItem "m" "p"))))).
Proof.
  apply (@request_ids_unique unit unit [nd "S"; nd "A"]
           [ed "S" "A"; ed "A" "S"] "S"
           (fun _ => Some (mkModelItem "m" "p"))).
  simpl. repeat constructor; simpl; intuition discriminate.
Defined.

Lemma agent_models_follow_nodes_witness :
  exists g,
    In g (graph_nodes
            (runRequest [nd "S"; nd "A"] [ed "S" "A"] "S"
               (fun x => if String.eqb x "A"
                         then Some (mkModelItem "m" "p") else None))) /\
    gn_id g = agent_id (mkAgentModel "A" "m" "p").
Proof.
  destruct (@agent_models_follow_nodes unit unit [nd "S"; nd "A"]
              [ed "S" "A"] "S"
              (fun x => if String.eqb x "A"
                        then Some (mkModelItem "m" "p") else None))
    as [_ H].
  apply (H (mkAgentModel "A" "m" "p")). simpl. tauto.
Defined.

Lemma stop_never_disabled_witness :
  disabled (mkConnection false true false false) = false.
Proof.
  destruct (stop_never_disabled (mkConnection false true false false))
    as [H _].
  apply H. reflexivity.
Defined.

Lemma shellName_nonempty_witness :
  shellName (Some "Macro desk") = "Macro desk" /\
  shellName (Some "") = "Macro News Opportunities".
Proof.
  split.
  - destruct (shellName_nonempty (Some "Macro desk")) as (_ & _ & H).
    apply (H "Macro desk"); [reflexivity | discriminate].
  - destruct (shellName_nonempty (Some "")) as (_ & H & _).
    apply H. right. reflexivity.
Defined.

(** * The request assembly on the heap *)

Section HeapProofs.

Context {Data Position : Type}.

Local Abbreviation Node := (Node Data Position).
Local Abbreviation Heap := (@Heap Data Position).
Local Abbreviation Obj := (@Obj Data Position).

Lemma holds_grow_new (h : Heap) (o : Obj) : holds (grow h o) (next h) o.
Proof.
  unfold holds, grow. simpl. rewrite Nat.eqb_refl. split; [lia | reflexivity].
Qed.

Lemma holds_grow_old (h : Heap) (o o' : Obj) (l : nat) :
  holds h l o' -> holds (grow h o) l o'.
Proof.
  intros [Hl Hc]. unfold holds, grow. simpl. split; [lia |].
  destruct (Nat.eqb_spec l (next h)); [lia | assumption].
Qed.

Lemma holds_upd_same (h : Heap) (o : Obj) (l : nat) :
  l < next h -> holds (upd h l o) l o.
Proof.
  intros Hl. unfold holds, upd. simpl. now rewrite Nat.eqb_refl.
Qed.

Lemma holds_upd_other (h : Heap) (o o' : Obj) (l l' : nat) :
  holds h l' o' -> l' <> l -> holds (upd h l o) l' o'.
Proof.
  intros [Hl Hc] Hne. unfold holds, upd. simpl. split; [assumption |].
  destruct (Nat.eqb_spec l' l); [contradiction | assumption].
Qed.

Lemma extends_refl (h : Heap) : extends h h.
Proof.
  split; [lia | reflexivity].
Qed.

Lemma extends_trans (h1 h2 h3 : Heap) :
  extends h1 h2 -> extends h2 h3 -> extends h1 h3.
Proof.
  intros [N1 C1] [N2 C2]. split; [lia |].
  intros l Hl. rewrite C2 by lia. now apply C1.
Qed.

Lemma extends_grow (h : Heap) (o : Obj) : extends h (grow h o).
Proof.
  split; simpl; [lia |]. intros l Hl.
  destruct (Nat.eqb_spec l (next h)); [lia | reflexivity].
Qed.

Lemma dfs_frame_refl (V R : nat) (h : Heap) : dfs_frame V R h h.
Proof.
  split; [lia | reflexivity].
Qed.

Lemma dfs_frame_trans (V R : nat) (h1 h2 h3 : Heap) :
  dfs_frame V R h1 h2 -> dfs_frame V R h2 h3 -> dfs_frame V R h1 h3.
Proof.
  intros [N1 C1] [N2 C2]. split; [lia |].
  intros l Hl HV HR. rewrite C2 by (assumption || lia). now apply C1.
Qed.

Lemma dfs_frame_grow (V R : nat) (h : Heap) (o : Obj) :
  dfs_frame V R h (grow h o).
Proof.
  destruct (extends_grow h o) as [N C]. split; [assumption |]. auto.
Qed.

Lemma dfs_frame_upd (V R : nat) (h : Heap) (o : Obj) (l : nat) :
  l = V \/ l = R -> dfs_frame V R h (upd h l o).
Proof.
  intros Hl. split; simpl; [lia |]. intros l' _ HV HR.
  destruct (Nat.eqb_spec l' l); [| reflexivity].
  destruct Hl; congruence.
Qed.

Lemma holds_dfs_frame (V R : nat) (h h' : Heap) (l : nat) (o : Obj) :
  holds h l o -> dfs_frame V R h h' -> l <> V -> l <> R -> holds h' l o.
Proof.
  intros [Hl Hc] [N C] HV HR. split; [lia |]. now rewrite C.
Qed.

Lemma holds_frame1 (loc : nat) (h h' : Heap) (l : nat) (o : Obj) :
  holds h l o -> frame1 loc h h' -> l <> loc -> holds h' l o.
Proof.
  intros [Hl Hc] [N C] Hne. split; [lia |]. now rewrite C.
Qed.

Lemma extends_dfs_frame (V R : nat) (h0 h h' : Heap) :
  extends h0 h -> dfs_frame V R h h' -> next h0 <= V -> next h0 <= R ->
  extends h0 h'.
Proof.
  intros [N0 C0] [N C] HV HR. split; [lia |].
  intros l Hl. rewrite C by lia. now apply C0.
Qed.

Lemma extends_frame1 (loc : nat) (h0 h h' : Heap) :
  extends h0 h -> frame1 loc h h' -> next h0 <= loc -> extends h0 h'.
Proof.
  intros [N0 C0] [N C] Hloc. split; [lia |].
  intros l Hl. rewrite C by lia. now apply C0.
Qed.

Lemma bind_eq {A B : Type} (m : @M Data Position A)
    (k : A -> @M Data Position B) (h h' : Heap) (a : A) :
  m h = Some (a, h') -> bind m k h = k a h'.
Proof.
  intros H. unfold bind. now rewrite H.
Qed.

Lemma load_holds (h : Heap) (l : nat) (o : Obj) :
  holds h l o -> load l h = Some (o, h).
Proof.
  intros [_ Hc]. unfold load. now rewrite Hc.
Qed.

Lemma loadNodes_holds (h : Heap) (l : nat) (ns : list Node) :
  holds h l (ONodeArray ns) -> loadNodes l h = Some (ns, h).
Proof.
  intros H. unfold loadNodes. now rewrite (@bind_eq _ _ _ _ _ _ _ (load_holds H)).
Qed.

Lemma loadEdges_holds (h : Heap) (l : nat) (es : list Edge) :
  holds h l (OEdgeArray es) -> loadEdges l h = Some (es, h).
Proof.
  intros H. unfold loadEdges. now rewrite (@bind_eq _ _ _ _ _ _ _ (load_holds H)).
Qed.

Lemma loadStrings_holds (h : Heap) (l : nat) (xs : list string) :
  holds h l (OStringArray xs) -> loadStrings l h = Some (xs, h).
Proof.
  intros H. unfold loadStrings. now rewrite (@bind_eq _ _ _ _ _ _ _ (load_holds H)).
Qed.

Lemma loadModels_holds (h : Heap) (l : nat) (ms : list AgentModel) :
  holds h l (OModelArray ms) -> loadModels l h = Some (ms, h).
Proof.
  intros H. unfold loadModels. now rewrite (@bind_eq _ _ _ _ _ _ _ (load_holds H)).
Qed.

Lemma loadSet_holds (h : Heap) (l : nat) (v : JSSet.t) :
  holds h l (OStringSet v) -> loadSet l h = Some (v, h).
Proof.
  intros H. unfold loadSet. now rewrite (@bind_eq _ _ _ _ _ _ _ (load_holds H)).
Qed.

Lemma Set_has_holds (h : Heap) (s : nat) (v : JSSet.t) (x : string) :
  holds h s (OStringSet v) -> Set_has s x h = Some (JSSet.has x v, h).
Proof.
  intros H. unfold Set_has. now rewrite (@bind_eq _ _ _ _ _ _ _ (loadSet_holds H)).
Qed.

Lemma Set_add_holds (h : Heap) (s : nat) (v : JSSet.t) (x : string) :
  holds h s (OStringSet v) ->
  Set_add s x h = Some (tt, upd h s (OStringSet (JSSet.add x v))).
Proof.
  intros H. unfold Set_add. now rewrite (@bind_eq _ _ _ _ _ _ _ (loadSet_holds H)).
Qed.

Lemma Array_push_holds (h : Heap) (arr : nat) (ms : list AgentModel)
    (a : AgentModel) :
  holds h arr (OModelArray ms) ->
  Array_push arr a h = Some (tt, upd h arr (OModelArray (ms ++ [a]))).
Proof.
  intros H. unfold Array_push. now rewrite (@bind_eq _ _ _ _ _ _ _ (loadModels_holds H)).
Qed.

Lemma filterM_pure {A : Type} (f : A -> @M Data Position bool)
    (b : A -> bool) (h : Heap) (l : list A) :
  (forall a, f a h = Some (b a, h)) ->
  filterM f l h = Some (filter b l, h).
Proof.
  intros Hf. induction l as [| a l IH]; simpl; [reflexivity |].
  rewrite (@bind_eq _ _ _ _ _ _ _ (Hf a)), (@bind_eq _ _ _ _ _ _ _ IH). reflexivity.
Qed.

Lemma findM_pure {A : Type} (f : A -> @M Data Position bool)
    (b : A -> bool) (h : Heap) (l : list A) :
  (forall a, f a h = Some (b a, h)) ->
  findM f l h = Some (find b l, h).
Proof.
  intros Hf. induction l as [| a l IH]; simpl; [reflexivity |].
  rewrite (@bind_eq _ _ _ _ _ _ _ (Hf a)). destruct (b a); [reflexivity | exact IH].
Qed.

Section Traversal.

Variables (locE locV locR : nat) (E : list Edge) (id : string).

Hypothesis HEV : locE <> locV.
Hypothesis HER : locE <> locR.
Hypothesis HVR : locV <> locR.

Lemma forM_dfs (fuel : nat) :
  (forall x st st' (h : Heap),
     dfs fuel E id x st = Some st' -> dfs_heap locE locV locR E st h ->
     exists h', dfsM fuel locE locV locR id x h = Some (tt, h') /\
                dfs_heap locE locV locR E st' h' /\
                dfs_frame locV locR h h') ->
  forall l st st' (h : Heap),
    for_of l (fun e s => dfs fuel E id (target e) s) st = Some st' ->
    dfs_heap locE locV locR E st h ->
    exists h',
      forM l (fun edge => dfsM fuel locE locV locR id (target edge)) h =
        Some (tt, h') /\
      dfs_heap locE locV locR E st' h' /\
      dfs_frame locV locR h h'.
Proof.
  intros IH. induction l as [| e l IHl]; intros st st' h H Hinv;
    simpl in H.
  - inversion H; subst. exists h. repeat split; try apply Hinv.
    + lia.
  - destruct (dfs fuel E id (target e) st) as [st2 |] eqn:Hd;
      [| discriminate].
    destruct (IH _ _ _ _ Hd Hinv) as [h2 (E2 & Hinv2 & F2)].
    destruct (IHl _ _ _ H Hinv2) as [h3 (E3 & Hinv3 & F3)].
    exists h3. split; [| split].
    + simpl. now rewrite (@bind_eq _ _ _ _ _ _ _ E2).
    + assumption.
    + now apply dfs_frame_trans with (h2 := h2).
Qed.

Lemma dfsM_refines :
  forall fuel x st st' (h : Heap),
    dfs fuel E id x st = Some st' -> dfs_heap locE locV locR E st h ->
    exists h', dfsM fuel locE locV locR id x h = Some (tt, h') /\
               dfs_heap locE locV locR E st' h' /\
               dfs_frame locV locR h h'.
Proof.
  induction fuel as [| fuel IH]; intros x st st' h H Hinv; simpl in H.
  - discriminate.
  - destruct Hinv as (HE & HV & HR).
    destruct (JSSet.has x (visited st)) eqn:Hx.
    + inversion H; subst. exists h. split; [| split].
      * cbn [dfsM]. rewrite (@bind_eq _ _ _ _ _ _ _ (Set_has_holds x HV)).
        now rewrite Hx.
      * repeat split; try apply HE; try apply HV; apply HR.
      * apply dfs_frame_refl.
    + set (h1 := upd h locV (OStringSet (JSSet.add x (visited st)))).
      set (h2 := if negb (String.eqb x id)
                 then upd h1 locR
                        (OStringSet (JSSet.add x (reachableNodes st)))
                 else h1).
      set (out := filter (fun edge => String.eqb (source edge) x) E) in *.
      set (h3 := grow h2 (OEdgeArray out)).
      assert (HV1 : holds h1 locV (OStringSet (JSSet.add x (visited st)))).
      { apply holds_upd_same. apply HV. }
      assert (HR1 : holds h1 locR (OStringSet (reachableNodes st))).
      { apply holds_upd_other; [assumption | congruence]. }
      assert (HE1 : holds h1 locE (OEdgeArray E)).
      { apply holds_upd_other; assumption. }
      assert (Hinv2 : dfs_heap locE locV locR E
                {| visited := JSSet.add x (visited st);
                   reachableNodes :=
                     if negb (String.eqb x id)
                     then JSSet.add x (reachableNodes st)
                     else reachableNodes st |} h2).
      { unfold dfs_heap, h2. simpl. destruct (negb (String.eqb x id)).
        - split; [| split].
          + apply holds_upd_other; assumption.
          + apply holds_upd_other; assumption.
          + apply holds_upd_same. apply HR1.
        - repeat split; try apply HE1; try apply HV1; apply HR1. }
      assert (F2 : dfs_frame locV locR h h2).
      { apply dfs_frame_trans with (h2 := h1).
        - apply dfs_frame_upd. now left.
        - unfold h2. destruct (negb (String.eqb x id)).
          + apply dfs_frame_upd. now right.
          + apply dfs_frame_refl. }
      assert (Hinv3 : dfs_heap locE locV locR E
                {| visited := JSSet.add x (visited st);
                   reachableNodes :=
                     if negb (String.eqb x id)
                     then JSSet.add x (reachableNodes st)
                     else reachableNodes st |} h3).
      { destruct Hinv2 as (A & B & C).
        repeat split; try apply holds_grow_old; try assumption;
          try apply (holds_grow_old _ A); try apply (holds_grow_old _ B);
          try apply (holds_grow_old _ C). }
      assert (Heq : dfsM (S fuel) locE locV locR id x h =
                    forM out
                      (fun edge =>
                         dfsM fuel locE locV locR id (target edge)) h3).
      { cbn [dfsM]. rewrite (@bind_eq _ _ _ _ _ _ _ (Set_has_holds x HV)).
        rewrite Hx.
        rewrite (@bind_eq _ _ _ _ _ _ _ (Set_add_holds x HV)).
        fold h1.
        assert (Hcond :
                  (if negb (String.eqb x id)
                   then Set_add locR x else ret tt) h1 = Some (tt, h2)).
        { unfold h2. destruct (negb (String.eqb x id)).
          - apply Set_add_holds. exact HR1.
          - reflexivity. }
        rewrite (@bind_eq _ _ _ _ _ _ _ Hcond).
        destruct Hinv2 as (A & _ & _).
        rewrite (@bind_eq _ _ _ _ _ _ _ (loadEdges_holds A)).
        rewrite (@bind_eq _ _ _ _ _ _ _
                   (@filterM_pure _
                      (fun edge => ret (String.eqb (source edge) x))
                      (fun edge => String.eqb (source edge) x) h2 E
                      (fun a => eq_refl))).
        fold out.
        rewrite (@bind_eq _ _ (alloc (OEdgeArray out)) _ h2 h3 (next h2)
                   eq_refl).
        rewrite (@bind_eq _ _ _ _ _ _ _
                   (loadEdges_holds (holds_grow_new h2 (OEdgeArray out)))).
        reflexivity. }
      destruct (@forM_dfs fuel IH out _ _ h3 H Hinv3)
        as [h' (E' & Hinv' & F')].
      exists h'. split; [| split].
      * now rewrite Heq.
      * assumption.
      * apply dfs_frame_trans with (h2 := h2); [assumption |].
        apply dfs_frame_trans with (h2 := h3); [| assumption].
        apply dfs_frame_grow.
Qed.

End Traversal.

Lemma forM_push (allAgentModels : string -> option ModelItem)
    (locM : nat) :
  forall (nodes : list Node) (acc : list AgentModel) (h : Heap),
    holds h locM (OModelArray acc) ->
    exists h',
      forM nodes
        (fun node =>
           match allAgentModels (node_id node) with
           | Some model =>
               Array_push locM
                 {| agent_id := node_id node;
                    am_model_name := item_model_name model;
                    am_model_provider := item_provider model |}
           | None => ret tt
           end) h = Some (tt, h') /\
      holds h' locM
        (OModelArray
           (fold_left
              (fun acc node =>
                 match allAgentModels (node_id node) with
                 | Some model =>
                     acc ++ [{| agent_id := node_id node;
                                am_model_name := item_model_name model;
                                am_model_provider := item_provider model |}]
                 | None => acc
                 end) nodes acc)) /\
      frame1 locM h h'.
Proof.
  induction nodes as [| n nodes IH]; intros acc h Hm; simpl.
  - exists h. split; [reflexivity |]. split; [assumption |].
    split; [lia | reflexivity].
  - destruct (allAgentModels (node_id n)) as [model |].
    + rewrite (@bind_eq _ _ _ _ _ _ _ (Array_push_holds _ Hm)).
      match goal with
      | |- context [upd h locM ?o] =>
          assert (Hu : holds (upd h locM o) locM o)
            by (apply holds_upd_same; apply Hm);
          destruct (IH _ (upd h locM o) Hu) as [h' (E' & H' & [N' C'])]
      end.
      exists h'. split; [assumption |]. split; [assumption |].
      split; [simpl in N'; lia |].
      intros l Hl Hne. rewrite C' by (simpl; assumption). simpl.
      destruct (Nat.eqb_spec l locM); [contradiction | reflexivity].
    + rewrite (@bind_eq _ _ (ret tt) _ h h tt eq_refl). now apply IH.
Qed.

Lemma valid_callback (h : Heap) (locS : nat) (v : JSSet.t) (edge : Edge) :
  holds h locS (OStringSet v) ->
  bind (Set_has locS (source edge))
       (fun b => if b then Set_has locS (target edge) else ret false) h
  = Some (JSSet.has (source edge) v && JSSet.has (target edge) v, h).
Proof.
  intros H. rewrite (@bind_eq _ _ _ _ _ _ _ (Set_has_holds _ H)).
  destruct (JSSet.has (source edge) v); simpl.
  - now apply Set_has_holds.
  - reflexivity.
Qed.

Lemma bind_intro {A B : Type} (m : @M Data Position A)
    (k : A -> @M Data Position B) (h h1 : Heap) (a : A)
    (r : option (B * Heap)) :
  m h = Some (a, h1) -> k a h1 = r -> bind m k h = r.
Proof.
  intros H <-. now apply bind_eq.
Qed.

Lemma alloc_eq (o : Obj) (h : Heap) : alloc o h = Some (next h, grow h o).
Proof.
  reflexivity.
Qed.

Ltac holds_tac :=
  repeat first
    [ eassumption | apply holds_grow_new | apply holds_grow_old ].

Ltac loc_lia :=
  repeat match goal with x := _ |- _ => subst x end; simpl in *; lia.

Ltac run E := eapply bind_intro; [exact E | cbv beta].

Ltac run_alloc := eapply bind_intro; [apply alloc_eq | cbv beta].

Lemma assembleRequest_spec (fuel n e : nat) (id : string)
    (allAgentModels : string -> option ModelItem)
    (nodes : list Node) (edges : list Edge) (h : Heap) :
  dfs_fuel edges <= fuel ->
  holds h n (ONodeArray nodes) ->
  holds h e (OEdgeArray edges) ->
  exists r h',
    assembleRequest fuel n e id allAgentModels h = Some (r, h') /\
    payload h' r = Some (runRequest nodes edges id allAgentModels) /\
    extends h h'.
Proof.
  intros Hfuel Hn He.
  set (locR := next h). set (ha := grow h (OStringSet JSSet.empty)).
  set (locV := next ha). set (hb := grow ha (OStringSet JSSet.empty)).
  assert (Hd : dfs fuel edges id id dfs_init = Some (run_dfs edges id)).
  { apply dfs_fuel_mono with (fuel := dfs_fuel edges);
      [assumption | apply run_dfs_eq]. }
  assert (Hinv : dfs_heap e locV locR edges dfs_init hb).
  { split; [| split]; simpl; unfold hb, ha; holds_tac. }
  assert (HEV : e <> locV) by (destruct He; loc_lia).
  assert (HER : e <> locR) by (destruct He; loc_lia).
  assert (HVR : locV <> locR) by loc_lia.
  destruct (@dfsM_refines e locV locR edges id HEV HER HVR fuel id
              dfs_init (run_dfs edges id) hb Hd Hinv)
    as [hc (Ec & (HEc & HVc & HRc) & Fc)].
  set (R := reachableNodes (run_dfs edges id)) in *.
  assert (Hnc : holds hc n (ONodeArray nodes)).
  { apply (@holds_dfs_frame locV locR hb hc); try assumption.
    - unfold hb, ha. holds_tac.
    - destruct Hn. loc_lia.
    - destruct Hn. loc_lia. }
  set (first := spread_option
                  (find (fun node : Node => String.eqb (node_id node) id)
                        nodes)).
  set (filtered := filter (fun node : Node => JSSet.has (node_id node) R)
                          nodes).
  set (S := JSSet.of_list (id :: R)).
  set (valid := filter (fun edge => JSSet.has (source edge) S &&
                                    JSSet.has (target edge) S) edges).
  set (locF := next hc). set (hd := grow hc (ONodeArray first)).
  set (locRest := next hd). set (he := grow hd (ONodeArray filtered)).
  set (locA := next he).
  set (hf := grow he (ONodeArray (first ++ filtered))).
  set (locI := next hf). set (hg := grow hf (OStringArray (id :: R))).
  set (locS := next hg). set (hh := grow hg (OStringSet S)).
  set (locVE := next hh). set (hi := grow hh (OEdgeArray valid)).
  set (locM := next hi). set (hj := grow hi (OModelArray [])).
  assert (HMj : holds hj locM (OModelArray [])) by (unfold hj; holds_tac).
  destruct (@forM_push allAgentModels locM (first ++ filtered) [] hj HMj)
    as [hk (Ek & HMk & Fk)].
  set (locT := next hk). set (hl := grow hk (OStringArray [])).
  set (locG := next hl).
  set (hm := grow hl (OGraphNodeArray
                        (map toGraphNode (first ++ filtered)))).
  assert (HAj : holds hj locA (ONodeArray (first ++ filtered))).
  { unfold hj, hi, hh, hg, hf. holds_tac. }
  assert (HVEj : holds hj locVE (OEdgeArray valid)).
  { unfold hj, hi. holds_tac. }
  assert (HAk : holds hk locA (ONodeArray (first ++ filtered))).
  { apply (@holds_frame1 locM hj hk); try assumption. loc_lia. }
  assert (HVEk : holds hk locVE (OEdgeArray valid)).
  { apply (@holds_frame1 locM hj hk); try assumption. loc_lia. }
  exists {| r_tickers := locT; r_graph_nodes := locG;
            r_graph_edges := locVE; r_agent_models := locM |}, hm.
  split; [| split].
  - unfold assembleRequest, Set_new.
    run_alloc. run_alloc. run Ec.
    run (loadNodes_holds Hnc).
    run (@findM_pure _
           (fun node : Node => ret (String.eqb (node_id node) id))
           (fun node : Node => String.eqb (node_id node) id) hc nodes
           (fun a => eq_refl)).
    run_alloc.
    assert (Hnd : holds hd n (ONodeArray nodes)) by (unfold hd; holds_tac).
    run (loadNodes_holds Hnd).
    assert (HRd : holds hd locR (OStringSet R)) by (unfold hd; holds_tac).
    run (@filterM_pure _
           (fun node : Node => Set_has locR (node_id node))
           (fun node : Node => JSSet.has (node_id node) R) hd nodes
           (fun a => Set_has_holds (node_id a) HRd)).
    run_alloc.
    assert (HFe : holds he locF (ONodeArray first))
      by (unfold he, hd; holds_tac).
    run (loadNodes_holds HFe).
    assert (HRe : holds he locRest (ONodeArray filtered))
      by (unfold he; holds_tac).
    run (loadNodes_holds HRe).
    run_alloc.
    assert (HRf : holds hf locR (OStringSet R))
      by (unfold hf, he, hd; holds_tac).
    run (loadSet_holds HRf).
    run_alloc.
    assert (HIg : holds hg locI (OStringArray (id :: R)))
      by (unfold hg; holds_tac).
    assert (ESet : Set_from locI hg = Some (locS, hh)).
    { unfold Set_from. run (loadStrings_holds HIg). apply alloc_eq. }
    run ESet.
    assert (HEh : holds hh e (OEdgeArray edges)).
    { unfold hh, hg, hf, he, hd. holds_tac. }
    run (loadEdges_holds HEh).
    assert (HSh : holds hh locS (OStringSet S)) by (unfold hh; holds_tac).
    run (@filterM_pure _
           (fun edge =>
              bind (Set_has locS (source edge))
                (fun b => if b then Set_has locS (target edge)
                          else ret false))
           (fun edge => JSSet.has (source edge) S &&
                        JSSet.has (target edge) S) hh edges
           (fun a => valid_callback a HSh)).
    run_alloc. run_alloc.
    run (loadNodes_holds HAj).
    run Ek.
    run_alloc.
    assert (HAl : holds hl locA (ONodeArray (first ++ filtered)))
      by (unfold hl; holds_tac).
    run (loadNodes_holds HAl).
    run_alloc.
    reflexivity.
  - assert (HT : holds hm locT (OStringArray []))
      by (unfold hm, hl; holds_tac).
    assert (HG : holds hm locG
                   (OGraphNodeArray (map toGraphNode (first ++ filtered))))
      by (unfold hm; holds_tac).
    assert (HVE : holds hm locVE (OEdgeArray valid))
      by (unfold hm, hl; holds_tac).
    assert (HM : holds hm locM _) by (unfold hm, hl; holds_tac).
    unfold payload. cbn [r_tickers r_graph_nodes r_graph_edges
                         r_agent_models].
    rewrite (proj2 HT), (proj2 HG), (proj2 HVE), (proj2 HM).
    reflexivity.
  - assert (X1 : extends h hc).
    { apply (@extends_dfs_frame locV locR h hb hc); try assumption.
      - apply extends_trans with (h2 := ha); apply extends_grow.
      - loc_lia.
      - loc_lia. }
    assert (X2 : extends h hj).
    { apply extends_trans with (h2 := hc); [assumption |].
      unfold hj, hi, hh, hg, hf, he, hd.
      repeat (eapply extends_trans; [| apply extends_grow]).
      apply extends_refl. }
    assert (X3 : extends h hk).
    { apply (@extends_frame1 locM h hj hk); try assumption.
      destruct X1 as [N1 _]. loc_lia. }
    apply extends_trans with (h2 := hk); [assumption |].
    unfold hm, hl.
    repeat (eapply extends_trans; [| apply extends_grow]).
    apply extends_refl.
Qed.

End HeapProofs.

Section Purity.

Context {Data Position : Type}.

Local Abbreviation Node := (Node Data Position).
Local Abbreviation Heap := (@Heap Data Position).

(** C9. Run on any two heaps that hold the same node list and the same edge
    list, at whatever locations and next to whatever other objects, with the
    same start id and model tables that answer alike, the extraction and
    assembly returns, and the two requests it hands over have equal
    payloads, namely the request of [runRequest]; every object that was on
    the heap before a run, the node list and the edge list among them, is
    unchanged after it: the writes of [add] and [push] go to objects the
    run allocated itself. *)
Theorem assembleRequest_pure (fuel1 fuel2 n1 e1 n2 e2 : nat) (id : string)
    (lookup1 lookup2 : string -> option ModelItem)
    (nodes : list Node) (edges : list Edge) (h1 h2 : Heap) :
  dfs_fuel edges <= fuel1 ->
  dfs_fuel edges <= fuel2 ->
  holds h1 n1 (ONodeArray nodes) ->
  holds h1 e1 (OEdgeArray edges) ->
  holds h2 n2 (ONodeArray nodes) ->
  holds h2 e2 (OEdgeArray edges) ->
  (forall x, lookup1 x = lookup2 x) ->
  exists r1 h1' r2 h2' request,
    assembleRequest fuel1 n1 e1 id lookup1 h1 = Some (r1, h1') /\
    assembleRequest fuel2 n2 e2 id lookup2 h2 = Some (r2, h2') /\
    payload h1' r1 = Some request /\
    payload h2' r2 = Some request /\
    request = runRequest nodes edges id lookup1 /\
    extends h1 h1' /\
    extends h2 h2' /\
    holds h1' n1 (ONodeArray nodes) /\
    holds h1' e1 (OEdgeArray edges) /\
    holds h2' n2 (ONodeArray nodes) /\
    holds h2' e2 (OEdgeArray edges).
Proof.
  intros F1 F2 Hn1 He1 Hn2 He2 Hl.
  destruct (@assembleRequest_spec _ _ fuel1 n1 e1 id lookup1 nodes edges h1
              F1 Hn1 He1) as [r1 [h1' (E1 & P1 & X1)]].
  destruct (@assembleRequest_spec _ _ fuel2 n2 e2 id lookup2 nodes edges h2
              F2 Hn2 He2) as [r2 [h2' (E2 & P2 & X2)]].
  exists r1, h1', r2, h2', (runRequest nodes edges id lookup1).
  assert (Hkeep : forall (h h' : Heap) l o,
             extends h h' -> holds h l o -> holds h' l o).
  { intros h h' l o [N C] [Hl' Hc]. split; [lia |]. now rewrite C. }
  split; [assumption |]. split; [assumption |]. split; [assumption |].
  split; [| split; [reflexivity |]].
  2:{ split; [assumption |]. split; [assumption |].
      repeat split; try (apply (Hkeep _ _ _ _ X1 Hn1));
        try (apply (Hkeep _ _ _ _ X1 He1));
        try (apply (Hkeep _ _ _ _ X2 Hn2));
        apply (Hkeep _ _ _ _ X2 He2). }
  rewrite P2. f_equal. unfold runRequest. f_equal.
  symmetry. now apply agentModels_ext.
Qed.

End Purity.

Lemma assembleRequest_pure_witness :
  exists r1 h1' r2 h2' request,
    assembleRequest 3 0 1 "S" (fun _ => Some (mkModelItem "m" "p")) heap_a
      = Some (r1, h1') /\
    assembleRequest 4 2 1 "S" (fun _ => Some (mkModelItem "m" "p")) heap_b
      = Some (r2, h2') /\
    payload h1' r1 = Some request /\
    payload h2' r2 = Some request /\
    request = runRequest [nd "S"; nd "A"] [ed "S" "A"] "S"
                (fun _ => Some (mkModelItem "m" "p")) /\
    extends heap_a h1' /\
    extends heap_b h2' /\
    holds h1' 0 (ONodeArray [nd "S"; nd "A"]) /\
    holds h1' 1 (OEdgeArray [ed "S" "A"]) /\
    holds h2' 2 (ONodeArray [nd "S"; nd "A"]) /\
    holds h2' 1 (OEdgeArray [ed "S" "A"]).
Proof.
  apply (@assembleRequest_pure unit unit 3 4 0 1 2 1 "S"
           (fun _ => Some (mkModelItem "m" "p"))
           (fun _ => Some (mkModelItem "m" "p"))
           [nd "S"; nd "A"] [ed "S" "A"] heap_a heap_b).
  - unfold dfs_fuel. simpl. lia.
  - unfold dfs_fuel. simpl. lia.
  - split; [cbv; lia | reflexivity].
  - split; [cbv; lia | reflexivity].
  - split; [cbv; lia | reflexivity].
  - split; [cbv; lia | reflexivity].
  - intros x. reflexivity.
Defined.
